(** * go-flake: snowflake-style 64-bit identifiers

    A shallow embedding of [flake.go] (package [flake]): the generator
    [Gen] with its constructor [NewGen], the minting operations [NextID] and
    [GenMulti], and the transport codec [ToBytes], [ToString], [FromString].

    Conventions of the embedding.
    - Go's [int64] and [uint64] are [Z] with the wrap-around written out
      ([int64] and [uint64] below are the two conversions).
    - A [byte] is a [Z] in [0, 256); a Go [string] is a Rocq [string].
    - The wall clock is an input: the list of the successive readings of
      [time.Now().UnixNano()].  Every call of [getTsInfo] consumes one reading.
      A run that needs more readings than the list holds has no result
      ([None]); [time.Sleep] has no other effect than letting time pass.
    - The memory the runtime can still hand out is an input as well: [heap]
      is the number of bytes an allocation can get.  [make] of a slice
      panics above the runtime's limit [maxAlloc] and is a fatal
      out-of-memory error above [heap].
    - [sync.Mutex] is not modelled: the embedding is the sequential behaviour
      of one call after the other. *)

From Stdlib Require Import ZArith List Bool Lia String Ascii Sorted.
From stdpp Require Import base list.
From coqutil Require Import Z.bitblast.
Import ListNotations.
Local Open Scope Z_scope.

(** ** Machine integers *)

(** Conversion to [int64]: two's complement wrap-around into [-2^63, 2^63). *)
Definition int64 (z : Z) : Z := (z + 2 ^ 63) mod 2 ^ 64 - 2 ^ 63.

(** Conversion to [uint64]: wrap-around into [0, 2^64). *)
Definition uint64 (z : Z) : Z := z mod 2 ^ 64.

(** Conversion to [byte]: the low eight bits. *)
Definition byte (z : Z) : Z := z mod 256.

(** ** Constants of [flake.go] *)

Definition workerIDBits : Z := 10.
Definition maxWorkerID : Z := Z.lxor (-1) (int64 (Z.shiftl (-1) workerIDBits)).
Definition sequenceBits : Z := 13.
Definition workerIDShift : Z := sequenceBits.
Definition timestampLeftShift : Z := sequenceBits + workerIDBits.
Definition sequenceMask : Z := Z.lxor (-1) (int64 (Z.shiftl (-1) sequenceBits)).

(** [FlakeID] is a [uint64]. *)
Definition FlakeID : Type := Z.

(** ** The generator *)

Record Gen : Type := mkGen {
  seq : Z;
  ts : Z;        (* the last timestamp in milliseconds *)
  fepoch : Z;
  workerID : Z   (* worker id  0 <= workerID <= maxWorkerID *)
}.

(** The two errors [NewGen] builds with [fmt.Errorf]; the arguments are the
    numbers formatted into the message. *)
Inductive GenError : Type :=
| ErrWorkerID (max actual : Z)   (* "worker id must be between 0 and %d, actual got %d" *)
| ErrEpoch (fepoch : Z).         (* "fepoch %d is moving backwards" *)

(** [getTsInfo] on one reading [nano] of [time.Now().UnixNano()]; Go's [/]
    and [%] on integers truncate towards zero. *)
Definition getTsInfo (nano : Z) : Z * Z :=
  (Z.quot nano 1000000, 1000000 - Z.rem nano 1000000).

(** The millisecond a clock reading falls in. *)
Definition millis (nano : Z) : Z := fst (getTsInfo nano).

(** [NewGen], run when the clock reads [nano]. *)
Definition NewGen (nano : Z) (workerID fepoch : Z) : Gen + GenError :=
  if (workerID <? 0) || (workerID >? maxWorkerID) then
    inr (ErrWorkerID maxWorkerID workerID)
  else
    let '(now, _) := getTsInfo nano in
    if now <? fepoch then inr (ErrEpoch fepoch)
    else
      let fepoch := if fepoch <=? 0 then 1234567891011 else fepoch in
      inl {| seq := -1; ts := -1; fepoch := fepoch; workerID := workerID |}.

(** The loop [for ts <= lastTs { time.Sleep(rem); ts, rem = getTsInfo() }]:
    it reads the clock until the millisecond is past [lastTs], and yields the
    millisecond it stopped at with the readings that are left. *)
Fixpoint waitNextMilli (lastTs ts : Z) (clock : list Z) {struct clock}
  : option (Z * list Z) :=
  if ts <=? lastTs then
    match clock with
    | [] => None
    | nano :: clock' => waitNextMilli lastTs (fst (getTsInfo nano)) clock'
    end
  else Some (ts, clock).

(** The value [NextID] returns: the three fields shifted into place in
    [int64] arithmetic, converted to [FlakeID]. *)
Definition pack (ts fepoch workerID seq : Z) : FlakeID :=
  uint64
    (Z.lor
       (Z.lor
          (Z.lor 0 (int64 (Z.shiftl (int64 (ts - fepoch)) timestampLeftShift)))
          (int64 (Z.shiftl workerID workerIDShift)))
       seq).

(** [NextID]: the identifier, the generator after the call and the clock
    readings that are left. *)
Definition NextID (g : Gen) (clock : list Z) : option (FlakeID * Gen * list Z) :=
  match clock with
  | [] => None
  | nano :: clock =>
    let '(ts0, _) := getTsInfo nano in
    let lastTs := ts g in
    let seq0 := seq g in
    let r :=
      if ts0 =? lastTs then
        let seq1 := Z.land (int64 (seq0 + 1)) sequenceMask in
        if seq1 =? 0 then
          match waitNextMilli lastTs ts0 clock with
          | Some (ts1, clock1) => Some (ts1, seq1, clock1)
          | None => None
          end
        else Some (ts0, seq1, clock)
      else Some (ts0, 0, clock) in
    match r with
    | None => None
    | Some (ts1, seq1, clock1) =>
      let g' := {| seq := seq1; ts := ts1; fepoch := fepoch g; workerID := workerID g |} in
      Some (pack ts1 (fepoch g') (workerID g') seq1, g', clock1)
    end
  end.

(** [n] calls of [NextID] one after the other: the identifiers in call
    order, the generator and the clock after the last call. *)
Fixpoint NextIDs (n : nat) (g : Gen) (clock : list Z)
  : option (list FlakeID * Gen * list Z) :=
  match n with
  | O => Some ([], g, clock)
  | S n' =>
    match NextID g clock with
    | None => None
    | Some (id, g1, clock1) =>
      match NextIDs n' g1 clock1 with
      | None => None
      | Some (ids, g2, clock2) => Some (id :: ids, g2, clock2)
      end
    end
  end.

(** The three fields of an identifier: bits 63-23, 22-13 and 12-0. *)
Definition timestampField (id : FlakeID) : Z := Z.shiftr id timestampLeftShift.
Definition workerField (id : FlakeID) : Z :=
  Z.land (Z.shiftr id workerIDShift) maxWorkerID.
Definition sequenceField (id : FlakeID) : Z := Z.land id sequenceMask.

(** ** Go's [encoding/base64], as [flake.go] uses it

    [base64.URLEncoding] is the padded, non-strict encoding over the URL and
    filename safe alphabet of RFC 4648.  The model follows the standard
    library's [Encode], [Decode] and [decodeQuantum]; the byte offset that a
    [CorruptInputError] carries is left out. *)
Module base64.

Inductive error : Type := CorruptInputError.

Definition encodeURL : string :=
  "ABCDEFGHIJKLMNOPQRSTUVWXYZabcdefghijklmnopqrstuvwxyz0123456789-_".

Definition padChar : ascii := "="%char.

(** [enc.encode[i]] *)
Definition encode (i : Z) : ascii :=
  nth (Z.to_nat i) (list_ascii_of_string encodeURL) "000"%char.

Fixpoint index_from (c : ascii) (l : list ascii) (i : Z) : Z :=
  match l with
  | [] => 255
  | x :: l' => if Ascii.eqb x c then i else index_from c l' (i + 1)
  end.

(** [enc.decodeMap[c]]: the position of [c] in the alphabet, [0xFF] for a
    character outside it. *)
Definition decodeMap (c : ascii) : Z :=
  index_from c (list_ascii_of_string encodeURL) 0.

(** [Encode]: three bytes become four characters; a last block of one or
    two bytes is padded. *)
Fixpoint Encode (src : list Z) : list ascii :=
  match src with
  | [] => []
  | b0 :: b1 :: b2 :: rest =>
    let val := Z.lor (Z.lor (Z.shiftl b0 16) (Z.shiftl b1 8)) b2 in
    encode (Z.land (Z.shiftr val 18) 63)
      :: encode (Z.land (Z.shiftr val 12) 63)
      :: encode (Z.land (Z.shiftr val 6) 63)
      :: encode (Z.land val 63)
      :: Encode rest
  | [b0; b1] =>
    let val := Z.lor (Z.shiftl b0 16) (Z.shiftl b1 8) in
    [encode (Z.land (Z.shiftr val 18) 63);
     encode (Z.land (Z.shiftr val 12) 63);
     encode (Z.land (Z.shiftr val 6) 63);
     padChar]
  | [b0] =>
    let val := Z.shiftl b0 16 in
    [encode (Z.land (Z.shiftr val 18) 63);
     encode (Z.land (Z.shiftr val 12) 63);
     padChar; padChar]
  end.

Definition EncodeToString (src : list Z) : string :=
  string_of_list_ascii (Encode src).

Definition isNewline (c : ascii) : bool :=
  Ascii.eqb c "010"%char || Ascii.eqb c "013"%char.

(** [for si < len(src) && (src[si] == '\n' || src[si] == '\r') { si++ }] *)
Fixpoint skipNewlines (src : list ascii) : list ascii :=
  match src with
  | c :: src' => if isNewline c then skipNewlines src' else src
  | [] => []
  end.

(** The bytes a quantum yields from the sextets [dbuf] read so far
    ([dlen = length dbuf], missing sextets are zero): [dlen - 1] bytes. *)
Definition quantumBytes (dbuf : list Z) : list Z :=
  let val :=
    Z.lor (Z.lor (Z.lor (Z.shiftl (nth 0 dbuf 0) 18) (Z.shiftl (nth 1 dbuf 0) 12))
                 (Z.shiftl (nth 2 dbuf 0) 6))
          (nth 3 dbuf 0) in
  firstn (length dbuf - 1)
    [byte (Z.shiftr val 16); byte (Z.shiftr val 8); byte (Z.shiftr val 0)].

(** After the padding of a quantum: newlines are skipped, anything else
    left is trailing garbage. *)
Definition afterPadding (src : list ascii) : option error :=
  match skipNewlines src with
  | [] => None
  | _ :: _ => Some CorruptInputError
  end.

(** [Decode]: the loop over [decodeQuantum], as one recursion over the
    input.  [dbuf] holds the sextets of the quantum being read; a full
    quantum is written out and the next one starts with an empty [dbuf].
    The result is the bytes written ([dbuf[:n]]) and the error. *)
Fixpoint decodeFrom (dbuf : list Z) (src : list ascii) {struct src}
  : list Z * option error :=
  match src with
  | [] =>
    match dbuf with
    | [] => ([], None)
    | _ :: _ => ([], Some CorruptInputError)
    end
  | c :: src' =>
    let out := decodeMap c in
    if negb (out =? 255) then
      match dbuf with
      | [_; _; _] =>
        let '(bs, err) := decodeFrom [] src' in
        (quantumBytes (dbuf ++ [out]) ++ bs, err)
      | _ => decodeFrom (dbuf ++ [out]) src'
      end
    else if isNewline c then decodeFrom dbuf src'
    else if negb (Ascii.eqb c padChar) then ([], Some CorruptInputError)
    else
      match dbuf with
      | [] | [_] => ([], Some CorruptInputError)      (* incorrect padding *)
      | [_; _] =>
        (* "==" is expected, the first "=" is already consumed *)
        match skipNewlines src' with
        | [] => ([], Some CorruptInputError)           (* not enough padding *)
        | c' :: src'' =>
          if Ascii.eqb c' padChar
          then (quantumBytes dbuf, afterPadding src'')
          else ([], Some CorruptInputError)            (* incorrect padding *)
        end
      | _ => (quantumBytes dbuf, afterPadding src')
      end
  end.

Definition DecodeString (s : string) : list Z * option error :=
  decodeFrom [] (list_ascii_of_string s).

End base64.

(** ** The transport codec *)

(** What a call comes to: it returns a value, returns an error, or panics
    at run time. *)
Inductive outcome (A E : Type) : Type :=
| Ok (a : A)
| Err (e : E)
| Panic.
Arguments Ok {A E} a.
Arguments Err {A E} e.
Arguments Panic {A E}.

(** [ToBytes] *)
Definition ToBytes (id : FlakeID) : list Z :=
  [byte (Z.shiftr id 56); byte (Z.shiftr id 48); byte (Z.shiftr id 40);
   byte (Z.shiftr id 32); byte (Z.shiftr id 24); byte (Z.shiftr id 16);
   byte (Z.shiftr id 8); byte id].

(** [ToString] *)
Definition ToString (id : FlakeID) : string :=
  base64.EncodeToString (ToBytes id).

(** The expression [FromString] assigns to [*id]: eight bytes, the most
    significant first, put together in [int64] arithmetic. *)
Definition assemble (b0 b1 b2 b3 b4 b5 b6 b7 : Z) : FlakeID :=
  uint64
    (Z.lor (Z.lor (Z.lor (Z.lor (Z.lor (Z.lor (Z.lor
       (int64 (Z.shiftl b0 56))
       (int64 (Z.shiftl b1 48)))
       (int64 (Z.shiftl b2 40)))
       (int64 (Z.shiftl b3 32)))
       (int64 (Z.shiftl b4 24)))
       (int64 (Z.shiftl b5 16)))
       (int64 (Z.shiftl b6 8)))
       b7).

(** [FromString]: [Ok id] is the return of [nil] with [*id = id]; [Err e] is
    the return of [e], [*id] untouched; [Panic] is the index-out-of-range
    panic of [bs[k]] on a decoded slice shorter than eight bytes. *)
Definition FromString (s : string) : outcome FlakeID base64.error :=
  match base64.DecodeString s with
  | (_, Some err) => Err err
  | (bs, None) =>
    match bs with
    | b0 :: b1 :: b2 :: b3 :: b4 :: b5 :: b6 :: b7 :: _ =>
      Ok (assemble b0 b1 b2 b3 b4 b5 b6 b7)
    | _ => Panic
    end
  end.

(** ** Batch minting *)

(** [b[i] = v] on a slice: out of range it panics ([None]). *)
Definition store (b : list Z) (i : Z) (v : Z) : option (list Z) :=
  if (0 <=? i) && (i <? Z.of_nat (length b))
  then Some (<[Z.to_nat i := v]> b)
  else None.

(** What a run of [GenMulti] comes to. *)
Inductive run (A : Type) : Type :=
| Done (a : A)
| Panicked        (* run-time panic *)
| OutOfMemory     (* fatal error: runtime: out of memory *)
| OutOfClock.     (* the clock readings ran out *)
Arguments Done {A} a.
Arguments Panicked {A}.
Arguments OutOfMemory {A}.
Arguments OutOfClock {A}.

(** [maxAlloc] of the Go runtime, the largest size [makeslice] lets
    through: [1 << heapAddrBits], 48 address bits on the 64-bit platforms
    (linux/amd64 among them).  Above it [make] panics with
    "makeslice: len out of range". *)
Definition maxAlloc : Z := 2 ^ 48.

(** What [make([]byte, len)] comes to. *)
Inductive allocation : Type :=
| Allocated (b : list Z)
| LenOutOfRange     (* panic: runtime error: makeslice: len out of range *)
| NoMemory.         (* fatal error: runtime: out of memory *)

(** [make([]byte, len)] for a length computed in [uint]: the panic of
    [makeslice] above [maxAlloc] (which takes in every length that does not
    fit an [int]), the fatal error when the [heap] cannot provide [len]
    bytes, [len] zero bytes otherwise. *)
Definition makeBytes (heap : Z) (len : Z) : allocation :=
  if maxAlloc <? len then LenOutOfRange
  else if heap <? len then NoMemory
  else Allocated (repeat 0 (Z.to_nat len)).

(** The eight assignments of one iteration, [off] being [i * 8]. *)
Definition putID (b : list Z) (off : Z) (id : FlakeID) : option (list Z) :=
  b ← store b (uint64 (off + 0)) (byte (Z.shiftr id 56));
  b ← store b (uint64 (off + 1)) (byte (Z.shiftr id 48));
  b ← store b (uint64 (off + 2)) (byte (Z.shiftr id 40));
  b ← store b (uint64 (off + 3)) (byte (Z.shiftr id 32));
  b ← store b (uint64 (off + 4)) (byte (Z.shiftr id 24));
  b ← store b (uint64 (off + 5)) (byte (Z.shiftr id 16));
  b ← store b (uint64 (off + 6)) (byte (Z.shiftr id 8));
  store b (uint64 (off + 7)) (byte id).

(** The loop of [GenMulti] with [todo] iterations left, [i] the loop
    variable. *)
Fixpoint GenMulti_loop (todo : nat) (i : Z) (g : Gen) (clock : list Z) (b : list Z)
  : run (list Z * Gen * list Z) :=
  match todo with
  | O => Done (b, g, clock)
  | S todo' =>
    match NextID g clock with
    | None => OutOfClock
    | Some (id, g1, clock1) =>
      let off := uint64 (i * 8) in
      match putID b off id with
      | None => Panicked
      | Some b' => GenMulti_loop todo' (uint64 (i + 1)) g1 clock1 b'
      end
    end
  end.

(** [GenMulti] with [n : uint] (64 bits): the slice is made for the
    wrapped length [n*8] before any identifier is minted. *)
Definition GenMulti (heap : Z) (g : Gen) (clock : list Z) (n : Z)
  : run (list Z * Gen * list Z) :=
  match makeBytes heap (uint64 (n * 8)) with
  | Allocated b => GenMulti_loop (Z.to_nat n) 0 g clock b
  | LenOutOfRange => Panicked
  | NoMemory => OutOfMemory
  end.

(** ** The package-level generator of [fid.go]

    Package [fid] keeps the generator in package variables ([workerID],
    [lastTs], [seq]) behind one mutex, with the fixed epoch [twepoch].  Its
    constants [maxWorkerID], [sequenceMask], [workerIDShift] and
    [timestampLeftShift] are declared as in [flake.go], and the value it
    returns is the same expression, so [pack] serves both.  [ToBytes],
    [ToString] and [FromString] of [FID] are those of [FlakeID] word for
    word. *)
Module fid.

Definition twepoch : Z := 1234567891011.

(** The package variables. *)
Record State : Type := mkState {
  workerID : Z;   (* worker id  0 <= workerID <= maxWorkerID *)
  lastTs : Z;     (* the last timestamp in milliseconds *)
  seq : Z
}.

(** Their values when the program starts: [lastTs] is initialised to -1,
    the two others to zero. *)
Definition start : State := {| workerID := 0; lastTs := -1; seq := 0 |}.

(** The error of [NextID]; the argument is the number in its message. *)
Inductive error : Type :=
| ErrBackwards (lastTs : Z).   (* "time is moving backwards, waiting until %d" *)

(** [Config]: the id is stored, then checked; [log.Fatalf] ends the
    process ([None]). *)
Definition Config (st : State) (id : Z) : option State :=
  let st := {| workerID := id; lastTs := lastTs st; seq := seq st |} in
  if (workerID st <? 0) || (workerID st >? maxWorkerID) then None
  else Some st.

(** [NextID]: the pair it returns, the package variables after the call and
    the clock readings that are left. *)
Definition NextID (st : State) (clock : list Z)
  : option ((FlakeID * option error) * State * list Z) :=
  match clock with
  | [] => None
  | nano :: clock =>
    let '(ts0, _) := getTsInfo nano in
    if ts0 <? lastTs st then
      Some ((0, Some (ErrBackwards (lastTs st))), st, clock)
    else
      let r :=
        if ts0 =? lastTs st then
          let seq1 := Z.land (int64 (seq st + 1)) sequenceMask in
          if seq1 =? 0 then
            match waitNextMilli (lastTs st) ts0 clock with
            | Some (ts1, clock1) => Some (ts1, seq1, clock1)
            | None => None
            end
          else Some (ts0, seq1, clock)
        else Some (ts0, 0, clock) in
      match r with
      | None => None
      | Some (ts1, seq1, clock1) =>
        let st' := {| workerID := workerID st; lastTs := ts1; seq := seq1 |} in
        Some ((pack ts1 twepoch (workerID st') seq1, None), st', clock1)
      end
  end.

(** [n] calls of [NextID] one after the other, whatever they return. *)
Fixpoint NextIDs (n : nat) (st : State) (clock : list Z)
  : option (list (FlakeID * option error) * State * list Z) :=
  match n with
  | O => Some ([], st, clock)
  | S n' =>
    match NextID st clock with
    | None => None
    | Some (r, st1, clock1) =>
      match NextIDs n' st1 clock1 with
      | None => None
      | Some (rs, st2, clock2) => Some (r :: rs, st2, clock2)
      end
    end
  end.

(** The loop of [GenMulti]: the first error ends it with a nil slice. *)
Fixpoint GenMulti_loop (todo : nat) (i : Z) (st : State) (clock : list Z)
         (b : list Z)
  : run ((list Z * option error) * State * list Z) :=
  match todo with
  | O => Done ((b, None), st, clock)
  | S todo' =>
    match NextID st clock with
    | None => OutOfClock
    | Some ((_, Some err), st1, clock1) => Done (([], Some err), st1, clock1)
    | Some ((id, None), st1, clock1) =>
      let off := uint64 (i * 8) in
      match putID b off id with
      | None => Panicked
      | Some b' => GenMulti_loop todo' (uint64 (i + 1)) st1 clock1 b'
      end
    end
  end.

(** [GenMulti] with [n : uint] (64 bits). *)
Definition GenMulti (heap : Z) (st : State) (clock : list Z) (n : Z)
  : run ((list Z * option error) * State * list Z) :=
  match makeBytes heap (uint64 (n * 8)) with
  | Allocated b => GenMulti_loop (Z.to_nat n) 0 st clock b
  | LenOutOfRange => Panicked
  | NoMemory => OutOfMemory
  end.

End fid.

(** ** The default generator

    [init] derives the worker id of the process-wide generator from the
    host's IPv4 address as a number, [util.IP4toInt(ip) % (maxWorkerID + 1)];
    [ip4] stands for that number ([util] is not part of the sources at hand).
    Go's [%] truncates towards zero. *)
Definition defaultWorkerID (ip4 : Z) : Z := Z.rem ip4 (int64 (maxWorkerID + 1)).

(** ** Vocabulary of the statements *)

(** The pair (timestamp field, sequence field) of an identifier, and the
    order that compares the timestamp first, then the sequence. *)
Definition key (id : FlakeID) : Z * Z := (timestampField id, sequenceField id).

Definition lex_lt (p q : Z * Z) : Prop :=
  fst p < fst q \/ (fst p = fst q /\ snd p < snd q).

(** The clock never goes back: the milliseconds of its successive readings
    do not decrease. *)
Definition nondecreasing (clock : list Z) : Prop :=
  StronglySorted Z.le (map millis clock).

(** The clock moves on: every reading is in a later millisecond than the
    one before, the first one later than [last]. *)
Definition advancing (last : Z) (clock : list Z) : Prop :=
  StronglySorted Z.lt (last :: map millis clock).

(** Every reading is inside the 41 bits of the timestamp field for the
    epoch [e]. *)
Definition in_range (e : Z) (clock : list Z) : Prop :=
  Forall (fun nano => 0 <= millis nano - e < 2 ^ 41) clock.

(** A generator that holds a worker id inside its field. *)
Definition valid_worker (g : Gen) : Prop := 0 <= workerID g <= 1023.

(** The bits of an identifier above its 13 sequence bits, for any worker
    value: the timestamp wrapped to 41 bits over the worker bits. *)
Definition upper (t e w : Z) : Z :=
  Z.lor (((t - e) mod 2 ^ 41) * 2 ^ 10) (w mod 2 ^ 51).

(** A value a Go [byte] can hold. *)
Definition is_byte (b : Z) : Prop := 0 <= b < 256.

(** What "valid URL-safe base64" means, stated on the text and not on the
    decoder (RFC 4648, section 5, with padding): once carriage returns and
    line feeds are taken out, groups of four characters of the alphabet, the
    last group possibly ending in one or two padding characters. *)
Definition inAlphabet (c : ascii) : bool := negb (base64.decodeMap c =? 255).

Definition isPad (c : ascii) : bool := Ascii.eqb c base64.padChar.

Definition isNil {A} (l : list A) : bool :=
  match l with [] => true | _ :: _ => false end.

Definition stripNewlines (l : list ascii) : list ascii :=
  List.filter (fun c => negb (base64.isNewline c)) l.

Fixpoint validGroups (l : list ascii) : bool :=
  match l with
  | [] => true
  | a :: b :: c :: d :: rest =>
    inAlphabet a && inAlphabet b &&
    (if inAlphabet c
     then if inAlphabet d then validGroups rest else isPad d && isNil rest
     else isPad c && isPad d && isNil rest)
  | _ => false
  end.

Definition valid_base64 (s : string) : bool :=
  validGroups (stripNewlines (list_ascii_of_string s)).

(** The number of bytes a valid text stands for: three for a full group,
    two and one for the padded ones. *)
Fixpoint payloadLength (l : list ascii) : nat :=
  match l with
  | a :: b :: c :: d :: rest =>
    if inAlphabet c
    then if inAlphabet d then 3 + payloadLength rest else 2
    else 1
  | _ => 0
  end.

(** The generator of [flake.go] and the package variables of [fid.go]
    hold the same state. *)
Definition same_state (g : Gen) (st : fid.State) : Prop :=
  fepoch g = fid.twepoch /\ workerID g = fid.workerID st /\
  ts g = fid.lastTs st /\ seq g = fid.seq st.

(** The identifiers among the results of [fid.NextID], in call order. *)
Definition minted (rs : list (FlakeID * option fid.error)) : list FlakeID :=
  map fst (List.filter (fun r => match snd r with None => true | Some _ => false end) rs).

(** Calls of [fid.NextID] up to [n] identifiers or the first error: the
    identifiers minted, the error if one ended the calls, the package
    variables and the clock after the last call. *)
Fixpoint mintUntilError (n : nat) (st : fid.State) (clock : list Z)
  : option (list FlakeID * option fid.error * fid.State * list Z) :=
  match n with
  | O => Some ([], None, st, clock)
  | S n' =>
    match fid.NextID st clock with
    | None => None
    | Some ((_, Some err), st1, clock1) => Some ([], Some err, st1, clock1)
    | Some ((id, None), st1, clock1) =>
      match mintUntilError n' st1 clock1 with
      | None => None
      | Some (ids, err, st2, clock2) => Some (id :: ids, err, st2, clock2)
      end
    end
  end.

(** The generator of [flake.go] that holds the state of [fid.go]. *)
Definition as_Gen (st : fid.State) : Gen :=
  {| seq := fid.seq st; ts := fid.lastTs st;
     fepoch := fid.twepoch; workerID := fid.workerID st |}.

(** The package variables of [fid.go] that hold the state of a generator. *)
Definition as_State (g : Gen) : fid.State :=
  {| fid.workerID := workerID g; fid.lastTs := ts g; fid.seq := seq g |}.

(** Byte sequences compared as [bytes.Compare] and sorted keys do: at the
    first byte that differs, a proper prefix coming first. *)
Fixpoint bytes_lt (a b : list Z) : Prop :=
  match a, b with
  | [], [] => False
  | [], _ :: _ => True
  | _ :: _, [] => False
  | x :: a', y :: b' => x < y \/ (x = y /\ bytes_lt a' b')
  end.

(** * Properties *)

(** ** Constants *)

Example maxWorkerID_val : maxWorkerID = 1023.
Proof. reflexivity. Qed.

Example sequenceMask_val : sequenceMask = 8191.
Proof. reflexivity. Qed.

(** ** Machine integers *)

Lemma uint64_range z : 0 <= uint64 z < 2 ^ 64.
Proof. unfold uint64. apply Z.mod_pos_bound. lia. Qed.

Lemma int64_range z : - 2 ^ 63 <= int64 z < 2 ^ 63.
Proof.
  unfold int64. pose proof (Z.mod_pos_bound (z + 2 ^ 63) (2 ^ 64)). lia.
Qed.

Lemma int64_small z : - 2 ^ 63 <= z < 2 ^ 63 -> int64 z = z.
Proof. intros H. unfold int64. rewrite Z.mod_small; lia. Qed.

Lemma uint64_small z : 0 <= z < 2 ^ 64 -> uint64 z = z.
Proof. intros H. unfold uint64. apply Z.mod_small. lia. Qed.

Lemma uint64_int64 z : uint64 (int64 z) = uint64 z.
Proof.
  unfold uint64, int64.
  rewrite Zminus_mod, Zmod_mod.
  rewrite <- Zminus_mod.
  f_equal. lia.
Qed.

Lemma uint64_land z : uint64 z = Z.land z (Z.ones 64).
Proof. unfold uint64. rewrite Z.land_ones by lia. reflexivity. Qed.

Lemma uint64_lor a b : uint64 (Z.lor a b) = Z.lor (uint64 a) (uint64 b).
Proof. rewrite !uint64_land. apply Z.land_lor_distr_l. Qed.

Lemma uint64_mul_congr a b k : uint64 a = uint64 b -> uint64 (a * k) = uint64 (b * k).
Proof.
  unfold uint64. intros H.
  rewrite (Z.mul_mod a), (Z.mul_mod b), H by lia. reflexivity.
Qed.

Lemma uint64_shiftl_int64 a k :
  0 <= k -> uint64 (int64 (Z.shiftl (int64 a) k)) = uint64 (a * 2 ^ k).
Proof.
  intros Hk. rewrite uint64_int64, Z.shiftl_mul_pow2 by lia.
  apply uint64_mul_congr, uint64_int64.
Qed.

(** A value below [2^n] shares no bit with a multiple of [2^n]. *)
Lemma land_low hi lo n :
  0 <= n -> 0 <= lo < 2 ^ n -> Z.land (hi * 2 ^ n) lo = 0.
Proof.
  intros Hn Hlo. apply Z.bits_inj'. intros i Hi.
  rewrite Z.land_spec, Z.bits_0.
  destruct (Z.lt_ge_cases i n) as [Hlt | Hge].
  - rewrite Z.mul_pow2_bits_low by lia. reflexivity.
  - rewrite <- (Z.mod_small lo (2 ^ n)) by lia.
    rewrite Z.mod_pow2_bits_high by lia. apply andb_false_r.
Qed.

(** Or-ing into the zero low bits of a shifted value is addition. *)
Lemma lor_low hi lo n :
  0 <= n -> 0 <= lo < 2 ^ n -> Z.lor (hi * 2 ^ n) lo = hi * 2 ^ n + lo.
Proof.
  intros Hn Hlo.
  pose proof (land_low hi lo n Hn Hlo) as Hdisj.
  rewrite <- Z.lxor_lor by exact Hdisj.
  symmetry. apply Z.add_nocarry_lxor. exact Hdisj.
Qed.

Example int64_wraps : int64 (2 ^ 63) = - 2 ^ 63 /\ uint64 (-1) = 2 ^ 64 - 1.
Proof. split; reflexivity. Qed.

(** ** The bit layout *)

Lemma pack_uint64 t e w s :
  pack t e w s =
  Z.lor (Z.lor (uint64 ((t - e) * 2 ^ 23)) (uint64 (w * 2 ^ 13))) (uint64 s).
Proof.
  unfold pack. rewrite Z.lor_0_l, !uint64_lor.
  unfold timestampLeftShift, workerIDShift, sequenceBits, workerIDBits.
  rewrite uint64_shiftl_int64 by lia.
  rewrite uint64_int64, Z.shiftl_mul_pow2 by lia.
  reflexivity.
Qed.

Lemma uint64_mul_pow2 a k :
  0 <= k <= 64 -> uint64 (a * 2 ^ k) = (a mod 2 ^ (64 - k)) * 2 ^ k.
Proof.
  intros Hk. unfold uint64.
  replace (2 ^ 64) with (2 ^ (64 - k) * 2 ^ k)
    by (rewrite <- Z.pow_add_r by lia; f_equal; lia).
  apply Z.mul_mod_distr_r; apply Z.pow_nonzero; lia.
Qed.

Lemma upper_nonneg t e w : 0 <= upper t e w.
Proof.
  unfold upper. apply Z.lor_nonneg. split.
  - pose proof (Z.mod_pos_bound (t - e) (2 ^ 41)). lia.
  - pose proof (Z.mod_pos_bound w (2 ^ 51)). lia.
Qed.

Lemma pack_upper t e w s :
  0 <= s <= 8191 -> pack t e w s = upper t e w * 8192 + s.
Proof.
  intros Hs. rewrite pack_uint64.
  rewrite (uint64_mul_pow2 (t - e) 23), (uint64_mul_pow2 w 13) by lia.
  rewrite (uint64_small s) by lia.
  change (64 - 23) with 41. change (64 - 13) with 51.
  replace ((t - e) mod 2 ^ 41 * 2 ^ 23)
    with (Z.shiftl ((t - e) mod 2 ^ 41 * 2 ^ 10) 13)
    by (rewrite Z.shiftl_mul_pow2 by lia; rewrite <- Z.mul_assoc; reflexivity).
  rewrite <- (Z.shiftl_mul_pow2 (w mod 2 ^ 51) 13) by lia.
  rewrite <- Z.shiftl_lor, Z.shiftl_mul_pow2 by lia.
  fold (upper t e w). change 8192 with (2 ^ 13).
  apply lor_low; lia.
Qed.

Lemma upper_valid t e w :
  0 <= w <= 1023 -> upper t e w = ((t - e) mod 2 ^ 41) * 1024 + w.
Proof.
  intros Hw. unfold upper. rewrite (Z.mod_small w) by lia.
  change 1024 with (2 ^ 10). apply lor_low; lia.
Qed.

(** With the worker and the sequence inside their fields the identifier is
    the sum of the three shifted fields. *)
Lemma pack_sum t e w s :
  0 <= w <= 1023 -> 0 <= s <= 8191 ->
  pack t e w s = ((t - e) mod 2 ^ 41) * 8388608 + w * 8192 + s.
Proof.
  intros Hw Hs. rewrite pack_upper, upper_valid by assumption. lia.
Qed.

Lemma sequenceField_mod id : sequenceField id = id mod 8192.
Proof.
  unfold sequenceField. change sequenceMask with (Z.ones 13).
  rewrite Z.land_ones by lia. reflexivity.
Qed.

Lemma workerField_mod id : workerField id = (id / 8192) mod 1024.
Proof.
  unfold workerField. change maxWorkerID with (Z.ones 10).
  rewrite Z.land_ones, Z.shiftr_div_pow2 by (unfold workerIDShift, sequenceBits; lia).
  reflexivity.
Qed.

Lemma timestampField_div id : timestampField id = id / 8388608.
Proof.
  unfold timestampField.
  rewrite Z.shiftr_div_pow2
    by (unfold timestampLeftShift, sequenceBits, workerIDBits; lia).
  reflexivity.
Qed.

Lemma sequenceField_pack t e w s :
  0 <= s <= 8191 -> sequenceField (pack t e w s) = s.
Proof.
  intros Hs. rewrite sequenceField_mod, pack_upper by assumption.
  rewrite Z.add_comm, Z.mod_add by lia. apply Z.mod_small. lia.
Qed.

Lemma timestampField_pack t e w s :
  0 <= s <= 8191 -> timestampField (pack t e w s) = upper t e w / 1024.
Proof.
  intros Hs. rewrite timestampField_div, pack_upper by assumption.
  pose proof (upper_nonneg t e w).
  Z.div_mod_to_equations. lia.
Qed.

Lemma workerField_pack t e w s :
  0 <= w <= 1023 -> 0 <= s <= 8191 -> workerField (pack t e w s) = w.
Proof.
  intros Hw Hs. rewrite workerField_mod, pack_sum by assumption.
  pose proof (Z.mod_pos_bound (t - e) (2 ^ 41)).
  Z.div_mod_to_equations. lia.
Qed.

Lemma timestampField_pack_valid t e w s :
  0 <= w <= 1023 -> 0 <= s <= 8191 ->
  timestampField (pack t e w s) = (t - e) mod 2 ^ 41.
Proof.
  intros Hw Hs. rewrite timestampField_div, pack_sum by assumption.
  pose proof (Z.mod_pos_bound (t - e) (2 ^ 41)).
  Z.div_mod_to_equations. lia.
Qed.

(** ** One call of [NextID] *)

Lemma next_seq_mod s : Z.land (int64 (s + 1)) sequenceMask = (s + 1) mod 8192.
Proof.
  change sequenceMask with (Z.ones 13). rewrite Z.land_ones by lia.
  change (2 ^ 13) with 8192. unfold int64.
  change (2 ^ 64) with (8192 * 2251799813685248).
  change (2 ^ 63) with (8192 * 1125899906842624).
  Z.div_mod_to_equations. lia.
Qed.

Lemma waitNextMilli_inv clock : forall last t t' clock',
  waitNextMilli last t clock = Some (t', clock') ->
  last < t' /\
  ((t' = t /\ clock' = clock) \/
   exists pre nano, clock = pre ++ nano :: clock' /\ t' = millis nano).
Proof.
  induction clock as [| nano clock IH]; intros last t t' clock' H; simpl in H.
  - destruct (Z.leb_spec t last); [discriminate |].
    injection H as <- <-. split; [lia | left; split; reflexivity].
  - destruct (Z.leb_spec t last).
    + apply IH in H. destruct H as [Hlt [[-> ->] | (pre & nano' & -> & ->)]].
      * split; [exact Hlt |]. right. exists [], nano. split; reflexivity.
      * split; [exact Hlt |]. right. exists (nano :: pre), nano'.
        split; reflexivity.
    + injection H as <- <-. split; [lia | left; split; reflexivity].
Qed.

(** The wait ends as soon as a reading is past [last]. *)
Lemma waitNextMilli_returns clock : forall last t,
  (last < t \/ Exists (fun nano => last < millis nano) clock) ->
  exists r, waitNextMilli last t clock = Some r.
Proof.
  induction clock as [| nano clock IH]; intros last t H; simpl.
  - destruct H as [H | H]; [| inversion H].
    destruct (Z.leb_spec t last); [lia | eauto].
  - destruct (Z.leb_spec t last); [| eauto].
    apply IH. destruct H as [H | H]; [lia |].
    inversion H as [? ? Hn | ? ? Hn]; subst; [left; exact Hn | right; exact Hn].
Qed.

(** A reading in a millisecond other than the stored one: the sequence
    restarts at 0 and the reading is committed, whatever its direction. *)
Lemma NextID_other_milli g nano clock :
  millis nano <> ts g ->
  NextID g (nano :: clock) =
  Some (pack (millis nano) (fepoch g) (workerID g) 0,
        {| seq := 0; ts := millis nano; fepoch := fepoch g; workerID := workerID g |},
        clock).
Proof.
  intros Hne. unfold NextID, millis in *. simpl in *.
  destruct (Z.eqb_spec (Z.quot nano 1000000) (ts g)); [contradiction | reflexivity].
Qed.

(** A reading in the stored millisecond with sequence numbers left: the
    sequence moves on by one. *)
Lemma NextID_same_milli g nano clock :
  millis nano = ts g -> 0 <= seq g < 8191 ->
  NextID g (nano :: clock) =
  Some (pack (ts g) (fepoch g) (workerID g) (seq g + 1),
        {| seq := seq g + 1; ts := ts g; fepoch := fepoch g; workerID := workerID g |},
        clock).
Proof.
  intros Heq Hs. unfold NextID, millis in *. simpl in *.
  rewrite Heq, Z.eqb_refl, next_seq_mod, Z.mod_small by lia.
  destruct (Z.eqb_spec (seq g + 1) 0); [lia | reflexivity].
Qed.

(** What a call that returns has done. *)
Lemma NextID_inv g clock id g' clock' :
  NextID g clock = Some (id, g', clock') ->
  (exists pre nano, clock = pre ++ nano :: clock' /\ ts g' = millis nano) /\
  fepoch g' = fepoch g /\ workerID g' = workerID g /\
  id = pack (ts g') (fepoch g) (workerID g) (seq g') /\
  0 <= seq g' <= 8191 /\
  ((seq g' = 0 /\ ts g' <> ts g) \/
   (ts g' = ts g /\ seq g' = (seq g + 1) mod 8192 /\ seq g' <> 0)).
Proof.
  unfold NextID. destruct clock as [| nano clock]; [discriminate |].
  simpl. change (Z.quot nano 1000000) with (millis nano).
  destruct (Z.eqb_spec (millis nano) (ts g)) as [Heq | Hne].
  - rewrite next_seq_mod.
    destruct (Z.eqb_spec ((seq g + 1) mod 8192) 0) as [Hz | Hnz].
    + destruct (waitNextMilli (ts g) (millis nano) clock) as [[t1 c1] |] eqn:Hw;
        cbn; [| discriminate].
      intros H. injection H as <- <- <-. cbn [ts seq fepoch workerID].
      apply waitNextMilli_inv in Hw. destruct Hw as [Hlt Hw].
      split; [| repeat split; try reflexivity; lia].
      destruct Hw as [[-> ->] | (pre & nano' & -> & ->)].
      * exists [], nano. split; reflexivity.
      * exists (nano :: pre), nano'. split; reflexivity.
    + intros H. injection H as <- <- <-. cbn [ts seq fepoch workerID].
      pose proof (Z.mod_pos_bound (seq g + 1) 8192).
      split; [| repeat split; try reflexivity; lia].
      exists [], nano. split; reflexivity.
  - intros H. injection H as <- <- <-. cbn [ts seq fepoch workerID].
    split; [| repeat split; try reflexivity; lia].
    exists [], nano. split; reflexivity.
Qed.

(** A call returns as soon as the clock holds a reading past the stored
    millisecond; a first reading in another millisecond is enough. *)
Lemma NextID_returns g nano clock :
  (millis nano <> ts g \/ Exists (fun nano' => ts g < millis nano') clock) ->
  exists r, NextID g (nano :: clock) = Some r.
Proof.
  intros H. destruct (Z.eq_dec (millis nano) (ts g)) as [Heq | Hne].
  - destruct H as [H | H]; [contradiction |].
    unfold NextID. simpl. change (Z.quot nano 1000000) with (millis nano).
    rewrite Heq, Z.eqb_refl.
    destruct (Z.land (int64 (seq g + 1)) sequenceMask =? 0); [| eauto].
    destruct (waitNextMilli_returns clock (ts g) (ts g)) as [[t1 c1] Hw];
      [right; exact H |].
    rewrite Hw. eauto.
  - rewrite NextID_other_milli by exact Hne. eauto.
Qed.

(** Inside the field widths the layout written with unbounded integers has
    no overlap and is the sum of the shifted fields. *)
Lemma layout_sum t w s :
  0 <= w <= 1023 -> 0 <= s <= 8191 ->
  Z.lor (Z.lor (Z.shiftl t 23) (Z.shiftl w 13)) s = t * 8388608 + w * 8192 + s.
Proof.
  intros Hw Hs. rewrite !Z.shiftl_mul_pow2 by lia.
  rewrite (lor_low t (w * 2 ^ 13) 23) by lia.
  replace (t * 2 ^ 23 + w * 2 ^ 13) with ((t * 1024 + w) * 2 ^ 13) by lia.
  rewrite lor_low by lia. lia.
Qed.

Lemma layout_disjoint t w s :
  0 <= w <= 1023 -> 0 <= s <= 8191 ->
  Z.land (Z.shiftl t 23) (Z.shiftl w 13) = 0 /\
  Z.land (Z.shiftl t 23) s = 0 /\
  Z.land (Z.shiftl w 13) s = 0.
Proof.
  intros Hw Hs. rewrite !Z.shiftl_mul_pow2 by lia.
  repeat split; apply land_low; lia.
Qed.

(** ** Construction *)

Lemma NewGen_bad_worker nano w e :
  w < 0 \/ w > 1023 -> NewGen nano w e = inr (ErrWorkerID 1023 w).
Proof.
  intros H. unfold NewGen. change maxWorkerID with 1023.
  destruct (Z.ltb_spec w 0); [reflexivity |].
  destruct (Z.gtb_spec w 1023); [reflexivity | lia].
Qed.

Lemma NewGen_bad_epoch nano w e :
  0 <= w <= 1023 -> millis nano < e -> NewGen nano w e = inr (ErrEpoch e).
Proof.
  intros Hw He. unfold NewGen, millis in *. simpl in *.
  change maxWorkerID with 1023.
  destruct (Z.ltb_spec w 0); [lia |].
  destruct (Z.gtb_spec w 1023); [lia |]. simpl.
  destruct (Z.ltb_spec (Z.quot nano 1000000) e); [reflexivity | lia].
Qed.

Lemma NewGen_good nano w e :
  0 <= w <= 1023 -> e <= millis nano ->
  NewGen nano w e =
  inl {| seq := -1; ts := -1;
         fepoch := (if e <=? 0 then 1234567891011 else e); workerID := w |}.
Proof.
  intros Hw He. unfold NewGen, millis in *. simpl in *.
  change maxWorkerID with 1023.
  destruct (Z.ltb_spec w 0); [lia |].
  destruct (Z.gtb_spec w 1023); [lia |]. simpl.
  destruct (Z.ltb_spec (Z.quot nano 1000000) e); [lia | reflexivity].
Qed.

(** Evaluates [millis] at the numerals of the goal. *)
Ltac eval_millis :=
  repeat match goal with
         | |- context [millis ?n] =>
           let v := eval vm_compute in (millis n) in
           change (millis n) with v
         end.

(** The generator [NewGen] returns: the sentinels, the epoch (the default
    one for an epoch <= 0) and the worker id. *)
Lemma NewGen_inv nano w e g :
  NewGen nano w e = inl g ->
  g = {| seq := -1; ts := -1;
         fepoch := (if e <=? 0 then 1234567891011 else e); workerID := w |}.
Proof.
  destruct (Z.lt_ge_cases w 0) as [Hneg | Hnn];
    [| destruct (Z.lt_ge_cases 1023 w) as [Hbig | Hle]].
  1, 2: rewrite NewGen_bad_worker by lia; discriminate.
  destruct (Z.lt_ge_cases (millis nano) e) as [Hfut | Hpast].
  - rewrite NewGen_bad_epoch by lia. discriminate.
  - rewrite NewGen_good by lia. congruence.
Qed.

Ltac settle_NewGen :=
  repeat match goal with
         | |- _ /\ _ => split
         | |- _ <-> _ => split
         end;
  intros;
  repeat match goal with
         | H : exists _, _ |- _ => destruct H
         end;
  try discriminate; try lia; try congruence; eauto.

(** C5.  [NewGen] returns the worker-id error exactly for a worker id below
    0 or above 1023; with a worker id in range it returns the epoch error
    exactly when the epoch is later than the millisecond the clock reads; it
    returns a generator exactly for a worker id in [0, 1023] and an epoch not
    later than the clock, and that generator holds the worker id, the
    sentinels -1 and the epoch (the default one for an epoch <= 0). *)
Theorem NewGen_validation (nano workerID0 fepoch0 : Z) :
  ((exists m a, NewGen nano workerID0 fepoch0 = inr (ErrWorkerID m a)) <->
   (workerID0 < 0 \/ workerID0 > 1023)) /\
  ((exists e, NewGen nano workerID0 fepoch0 = inr (ErrEpoch e)) <->
   (0 <= workerID0 <= 1023 /\ millis nano < fepoch0)) /\
  ((exists g, NewGen nano workerID0 fepoch0 = inl g) <->
   (0 <= workerID0 <= 1023 /\ fepoch0 <= millis nano)) /\
  (forall g, NewGen nano workerID0 fepoch0 = inl g ->
     g = {| seq := -1; ts := -1;
            fepoch := (if fepoch0 <=? 0 then 1234567891011 else fepoch0);
            workerID := workerID0 |}).
Proof.
  destruct (Z.lt_ge_cases workerID0 0) as [Hneg | Hnn];
    [| destruct (Z.lt_ge_cases 1023 workerID0) as [Hbig | Hle]].
  1, 2: rewrite NewGen_bad_worker by lia; settle_NewGen.
  destruct (Z.lt_ge_cases (millis nano) fepoch0) as [Hfut | Hpast].
  - rewrite NewGen_bad_epoch by lia. settle_NewGen.
  - rewrite NewGen_good by lia. settle_NewGen.
Qed.

Lemma NewGen_validation_witness :
  exists g, NewGen 1700000000000000000 123 0 = inl g.
Proof.
  destruct (NewGen_validation 1700000000000000000 123 0) as (_ & _ & [_ H] & _).
  apply H. change (millis 1700000000000000000) with 1700000000000. lia.
Defined.

(** ** Minting *)

(** C4.  The identifier [NextID] returns is the packed value of the source,
    built from the millisecond [now] committed to [ts] (the millisecond of a
    reading of the clock), the worker id and the committed sequence.  With
    the worker id in [0, 1023], the sequence in [0, 8191] and [now - fepoch]
    in [0, 2^41), it is [((now - fepoch) << 23) | (workerID << 13) | seq]
    without any wrap-around, the three shifted fields share no bit, and each
    field is read back from the identifier. *)
Theorem NextID_packs (g : Gen) (clock : list Z)
        (id : FlakeID) (g' : Gen) (clock' : list Z) :
  NextID g clock = Some (id, g', clock') ->
  let now := ts g' in
  (exists nano, In nano clock /\ now = millis nano) /\
  id = pack now (fepoch g) (workerID g) (seq g') /\
  (0 <= workerID g <= 1023 -> 0 <= seq g' <= 8191 ->
   0 <= now - fepoch g < 2 ^ 41 ->
   id = Z.lor (Z.lor (Z.shiftl (now - fepoch g) 23) (Z.shiftl (workerID g) 13))
              (seq g') /\
   Z.land (Z.shiftl (now - fepoch g) 23) (Z.shiftl (workerID g) 13) = 0 /\
   Z.land (Z.shiftl (now - fepoch g) 23) (seq g') = 0 /\
   Z.land (Z.shiftl (workerID g) 13) (seq g') = 0 /\
   timestampField id = now - fepoch g /\
   workerField id = workerID g /\
   sequenceField id = seq g').
Proof.
  intros H now. apply NextID_inv in H.
  destruct H as ((pre & nano & Hclock & Hts) & _ & _ & Hid & _ & _).
  split; [| split; [exact Hid |]].
  - exists nano. split; [| exact Hts].
    rewrite Hclock. apply in_or_app. right. left. reflexivity.
  - intros Hw Hs Ht. fold now in Hid. subst id.
    destruct (layout_disjoint (now - fepoch g) (workerID g) (seq g') Hw Hs)
      as (D1 & D2 & D3).
    rewrite timestampField_pack_valid, workerField_pack, sequenceField_pack
      by assumption.
    rewrite layout_sum, pack_sum by assumption.
    rewrite (Z.mod_small (now - fepoch g)) by assumption.
    repeat split; assumption || reflexivity.
Qed.

Lemma NextID_packs_witness :
  NextID {| seq := -1; ts := -1; fepoch := 1234567891011; workerID := 123 |}
         [1700000000000000000] =
  Some (3904327512923004928,
        {| seq := 0; ts := 1700000000000; fepoch := 1234567891011; workerID := 123 |},
        []) /\
  timestampField 3904327512923004928 = 465432108989 /\
  workerField 3904327512923004928 = 123 /\
  sequenceField 3904327512923004928 = 0.
Proof.
  split; [reflexivity |].
  destruct (NextID_packs
    {| seq := -1; ts := -1; fepoch := 1234567891011; workerID := 123 |}
    [1700000000000000000] 3904327512923004928
    {| seq := 0; ts := 1700000000000; fepoch := 1234567891011; workerID := 123 |}
    [] eq_refl) as (_ & _ & H).
  destruct H as (_ & _ & _ & _ & Ht & Hw & Hs);
    [simpl; lia | simpl; lia | simpl; lia |].
  split; [exact Ht | split; [exact Hw | exact Hs]].
Defined.

(** C7.  [NextID] has no error result and does not reject a clock that went
    back: a reading in a millisecond other than the stored [ts] (before it,
    after it, or any reading against the sentinel -1 of a fresh generator)
    makes the call return at once, with the sequence reset to 0, the reading
    committed to [ts] and the identifier built from it.  A call returns as
    soon as the clock shows a millisecond past [ts].  After a backwards jump
    the timestamp field of the new identifier is below the one of the
    identifier issued before. *)
Theorem NextID_accepts_any_other_milli (g : Gen) (nano : Z) (clock : list Z) :
  (millis nano <> ts g ->
   NextID g (nano :: clock) =
   Some (pack (millis nano) (fepoch g) (workerID g) 0,
         {| seq := 0; ts := millis nano;
            fepoch := fepoch g; workerID := workerID g |},
         clock)) /\
  (Exists (fun nano' => ts g < millis nano') clock ->
   exists r, NextID g (nano :: clock) = Some r) /\
  (forall g0 clock0 id0 clock1,
     NextID g0 clock0 = Some (id0, g, clock1) ->
     millis nano < ts g ->
     0 <= workerID g <= 1023 ->
     0 <= millis nano - fepoch g -> ts g - fepoch g < 2 ^ 41 ->
     exists id,
       NextID g (nano :: clock) =
       Some (id, {| seq := 0; ts := millis nano;
                    fepoch := fepoch g; workerID := workerID g |}, clock) /\
       timestampField id < timestampField id0).
Proof.
  split; [apply NextID_other_milli |].
  split; [intros H; apply NextID_returns; right; exact H |].
  intros g0 clock0 id0 clock1 H0 Hback Hw Hlo Hhi.
  apply NextID_inv in H0.
  destruct H0 as (_ & He & Hwk & Hid0 & Hs & _).
  rewrite NextID_other_milli by lia.
  eexists. split; [reflexivity |].
  rewrite Hid0, <- He, <- Hwk.
  rewrite !timestampField_pack_valid by lia.
  rewrite !Z.mod_small by lia. lia.
Qed.

Lemma NextID_accepts_any_other_milli_witness :
  exists id,
    NextID {| seq := 4; ts := 1700000000000; fepoch := 1234567891011; workerID := 123 |}
           [1700000000005000000] =
    Some (3904327512964947968,
          {| seq := 0; ts := 1700000000005;
             fepoch := 1234567891011; workerID := 123 |}, []) /\
    NextID {| seq := 0; ts := 1700000000005;
              fepoch := 1234567891011; workerID := 123 |}
           [1700000000001000000] =
    Some (id, {| seq := 0; ts := 1700000000001;
                 fepoch := 1234567891011; workerID := 123 |}, []) /\
    timestampField id < timestampField 3904327512964947968.
Proof.
  pose proof (NextID_accepts_any_other_milli
    {| seq := 0; ts := 1700000000005; fepoch := 1234567891011; workerID := 123 |}
    1700000000001000000 []) as (_ & _ & H).
  change (millis 1700000000001000000) with 1700000000001 in H.
  destruct (H {| seq := 4; ts := 1700000000000;
                 fepoch := 1234567891011; workerID := 123 |}
              [1700000000005000000] 3904327512964947968 [] eq_refl)
    as (id & Hcall & Hlt); [simpl; lia | simpl; lia | simpl; lia | simpl; lia |].
  exists id. split; [reflexivity |]. split; [exact Hcall | exact Hlt].
Defined.

(** ** Successive calls *)

Lemma lex_lt_trans p q r : lex_lt p q -> lex_lt q r -> lex_lt p r.
Proof. unfold lex_lt. lia. Qed.

Lemma key_pack t e w s :
  0 <= w <= 1023 -> 0 <= s <= 8191 -> 0 <= t - e < 2 ^ 41 ->
  key (pack t e w s) = (t - e, s).
Proof.
  intros Hw Hs Ht. unfold key.
  rewrite timestampField_pack_valid, sequenceField_pack by assumption.
  rewrite Z.mod_small by assumption. reflexivity.
Qed.

(** Between two identifiers of one worker the order of the keys is the
    order of the numbers. *)
Lemma pack_lt t1 s1 t2 s2 e w :
  0 <= w <= 1023 -> 0 <= s1 <= 8191 -> 0 <= s2 <= 8191 ->
  0 <= t1 - e < 2 ^ 41 -> 0 <= t2 - e < 2 ^ 41 ->
  lex_lt (t1 - e, s1) (t2 - e, s2) ->
  pack t1 e w s1 < pack t2 e w s2.
Proof.
  intros Hw Hs1 Hs2 Ht1 Ht2 Hlex. rewrite !pack_sum by assumption.
  rewrite !Z.mod_small by assumption.
  unfold lex_lt in Hlex. simpl in Hlex. lia.
Qed.

(** The state moves up in the order of (timestamp, sequence) whenever the
    committed millisecond is not behind the stored one. *)
Lemma NextID_state_increases g clock id g' clock' :
  0 <= seq g <= 8191 ->
  NextID g clock = Some (id, g', clock') ->
  ts g <= ts g' ->
  lex_lt (ts g - fepoch g, seq g) (ts g' - fepoch g, seq g').
Proof.
  intros Hs H Hle. apply NextID_inv in H.
  destruct H as (_ & _ & _ & _ & Hs' & [[Hz Hne] | (Heq & Hnext & Hnz)]).
  - left. simpl. lia.
  - right. simpl. split; [lia |].
    destruct (Z.eq_dec (seq g) 8191) as [E | E].
    + rewrite E in Hnext. change ((8191 + 1) mod 8192) with 0 in Hnext. lia.
    + rewrite Z.mod_small in Hnext by lia. lia.
Qed.

Lemma StronglySorted_suffix {A} (R : A -> A -> Prop) (l1 l2 : list A) :
  StronglySorted R (l1 ++ l2) -> StronglySorted R l2.
Proof.
  induction l1 as [| a l1 IH]; simpl; intros H; [exact H |].
  apply IH. apply StronglySorted_inv in H. apply H.
Qed.

(** The readings left after a call are not before the committed one. *)
Lemma NextID_clock g clock id g' clock' :
  nondecreasing clock -> in_range (fepoch g) clock ->
  NextID g clock = Some (id, g', clock') ->
  nondecreasing clock' /\ in_range (fepoch g) clock' /\
  Forall (fun nano => ts g' <= millis nano) clock' /\
  0 <= ts g' - fepoch g < 2 ^ 41.
Proof.
  unfold nondecreasing, in_range. intros Hsort Hrange H.
  apply NextID_inv in H. destruct H as ((pre & nano & -> & Hts) & _).
  rewrite map_app in Hsort. simpl in Hsort.
  apply StronglySorted_suffix in Hsort.
  apply StronglySorted_inv in Hsort. destruct Hsort as [Hsort Hall].
  apply Forall_app in Hrange. destruct Hrange as [_ Hrange].
  apply Forall_cons_iff in Hrange. destruct Hrange as [Hnano Hrange].
  repeat split; try assumption; try (rewrite Hts; lia).
  rewrite Hts. rewrite List.Forall_map in Hall. exact Hall.
Qed.

(** From a generator that has minted: the identifiers of the next calls go
    up from the last identifier on, and so do their keys. *)
Lemma NextIDs_increasing_from n : forall g clock ids g' clock',
  valid_worker g -> 0 <= seq g <= 8191 -> 0 <= ts g - fepoch g < 2 ^ 41 ->
  Forall (fun nano => ts g <= millis nano) clock ->
  nondecreasing clock -> in_range (fepoch g) clock ->
  NextIDs n g clock = Some (ids, g', clock') ->
  StronglySorted Z.lt (pack (ts g) (fepoch g) (workerID g) (seq g) :: ids) /\
  StronglySorted lex_lt ((ts g - fepoch g, seq g) :: map key ids).
Proof.
  induction n as [| n IH]; intros g clock ids g' clock' Hw Hs Ht Hge Hsort Hrange H;
    simpl in H.
  - injection H as <- _ _. split; repeat constructor.
  - destruct (NextID g clock) as [[[id g1] clock1] |] eqn:Hcall; [| discriminate].
    destruct (NextIDs n g1 clock1) as [[[ids1 g2] clock2] |] eqn:Hrest;
      [| discriminate].
    injection H as <- _ _.
    destruct (NextID_clock _ _ _ _ _ Hsort Hrange Hcall)
      as (Hsort1 & Hrange1 & Hge1 & Ht1).
    pose proof (NextID_inv _ _ _ _ _ Hcall)
      as ((pre & nano & Hclock & Hts) & He & Hwk & Hid & Hs1 & _).
    assert (Hle : ts g <= ts g1).
    { rewrite Hts. rewrite List.Forall_forall in Hge. apply Hge.
      rewrite Hclock. apply in_or_app. right. left. reflexivity. }
    pose proof (NextID_state_increases _ _ _ _ _ Hs Hcall Hle) as Hlex.
    unfold valid_worker in *.
    destruct (IH g1 clock1 ids1 g2 clock2) as [Hids Hkeys]; try assumption;
      try (rewrite ?He, ?Hwk; assumption).
    rewrite He, Hwk, <- Hid in Hids. rewrite He in Hkeys.
    assert (Hlt : pack (ts g) (fepoch g) (workerID g) (seq g) < id).
    { rewrite Hid. apply pack_lt; assumption. }
    apply StronglySorted_inv in Hids. destruct Hids as [Hids Hall].
    apply StronglySorted_inv in Hkeys. destruct Hkeys as [Hkeys Hkall].
    assert (Hkey : key id = (ts g1 - fepoch g, seq g1))
      by (rewrite Hid; apply key_pack; assumption).
    split.
    + constructor; [constructor; assumption |].
      constructor; [exact Hlt |].
      eapply List.Forall_impl; [| exact Hall]. simpl. intros; lia.
    + simpl. rewrite Hkey. constructor; [constructor; assumption |].
      constructor; [exact Hlex |].
      eapply List.Forall_impl; [| exact Hkall]. simpl.
      intros k Hk. eapply lex_lt_trans; eassumption.
Qed.

Lemma StronglySorted_lt_NoDup (l : list Z) : StronglySorted Z.lt l -> List.NoDup l.
Proof.
  induction 1 as [| a l Hl IH Hall]; constructor; [| exact IH].
  intros Hin. rewrite List.Forall_forall in Hall. specialize (Hall a Hin). lia.
Qed.

(** C1, as the code has it.  For a generator with its worker id in
    [0, 1023], a clock whose successive readings never go back, and readings
    that all fit the 41 bits of the timestamp field ([0 <= now - fepoch < 2^41]),
    the identifiers of any number of successive calls of [NextID] are
    strictly increasing, their (timestamp, sequence) pairs are strictly
    increasing in the lexicographic order, and no value is returned twice. *)
Theorem NextIDs_strictly_increasing (n : nat) (g : Gen) (clock : list Z)
        (ids : list FlakeID) (g' : Gen) (clock' : list Z) :
  valid_worker g -> nondecreasing clock -> in_range (fepoch g) clock ->
  NextIDs n g clock = Some (ids, g', clock') ->
  StronglySorted Z.lt ids /\
  StronglySorted lex_lt (map key ids) /\
  List.NoDup ids.
Proof.
  intros Hw Hsort Hrange H.
  assert (Hgoal : StronglySorted Z.lt ids /\ StronglySorted lex_lt (map key ids)).
  { destruct n as [| n]; simpl in H.
    - injection H as <- _ _. split; constructor.
    - destruct (NextID g clock) as [[[id g1] clock1] |] eqn:Hcall; [| discriminate].
      destruct (NextIDs n g1 clock1) as [[[ids1 g2] clock2] |] eqn:Hrest;
        [| discriminate].
      injection H as <- _ _.
      destruct (NextID_clock _ _ _ _ _ Hsort Hrange Hcall)
        as (Hsort1 & Hrange1 & Hge1 & Ht1).
      pose proof (NextID_inv _ _ _ _ _ Hcall)
        as (_ & He & Hwk & Hid & Hs1 & _).
      unfold valid_worker in *.
      destruct (NextIDs_increasing_from n g1 clock1 ids1 g2 clock2)
        as [Hids Hkeys]; try assumption;
        try (unfold valid_worker; rewrite ?He, ?Hwk; assumption).
      rewrite He, Hwk, <- Hid in Hids. rewrite He in Hkeys.
      split; [exact Hids |].
      simpl. rewrite Hid, key_pack by assumption. exact Hkeys. }
  destruct Hgoal as [Hids Hkeys].
  repeat split; [exact Hids | exact Hkeys |].
  apply StronglySorted_lt_NoDup. exact Hids.
Qed.

Lemma NextIDs_strictly_increasing_witness :
  NextIDs 3 {| seq := -1; ts := -1; fepoch := 1234567891011; workerID := 123 |}
          [1700000000000000000; 1700000000000000001; 1700000000001000000] =
  Some ([3904327512923004928; 3904327512923004929; 3904327512931393536],
        {| seq := 0; ts := 1700000000001; fepoch := 1234567891011; workerID := 123 |},
        []) /\
  StronglySorted Z.lt
    [3904327512923004928; 3904327512923004929; 3904327512931393536].
Proof.
  split; [reflexivity |].
  refine (proj1 (NextIDs_strictly_increasing 3
    {| seq := -1; ts := -1; fepoch := 1234567891011; workerID := 123 |}
    [1700000000000000000; 1700000000000000001; 1700000000001000000]
    _ _ _ _ _ _ eq_refl)).
  - unfold valid_worker. simpl. lia.
  - unfold nondecreasing. simpl. eval_millis. repeat constructor; lia.
  - unfold in_range. repeat (apply List.Forall_cons; [simpl; eval_millis; lia |]).
    apply List.Forall_nil.
Defined.

(** C1 as it is stated, without the bound of the timestamp field, fails:
    the generator [NewGen] builds for worker 123 and the default epoch, read
    at two successive milliseconds around [fepoch + 2^41], returns a second
    identifier below the first, because the timestamp wraps around its 41
    bits. *)
Lemma NextIDs_wrap_after_41_bits :
  NewGen 1700000000000000000 123 0 =
    inl {| seq := -1; ts := -1; fepoch := 1234567891011; workerID := 123 |} /\
  valid_worker {| seq := -1; ts := -1; fepoch := 1234567891011; workerID := 123 |} /\
  nondecreasing [3433591146562000000; 3433591146563000000] /\
  NextIDs 2 {| seq := -1; ts := -1; fepoch := 1234567891011; workerID := 123 |}
          [3433591146562000000; 3433591146563000000] =
  Some ([18446744073702170624; 1007616],
        {| seq := 0; ts := 3433591146563; fepoch := 1234567891011; workerID := 123 |},
        []) /\
  ~ StronglySorted Z.lt [18446744073702170624; 1007616].
Proof.
  split; [reflexivity |].
  split; [unfold valid_worker; simpl; lia |].
  split.
  { unfold nondecreasing. simpl. eval_millis. repeat constructor; lia. }
  split; [vm_compute; reflexivity |].
  intros H. apply StronglySorted_inv in H. destruct H as [_ H].
  apply Forall_inv in H. lia.
Qed.

(** ** Calls inside one millisecond *)

Lemma shiftr13_pack t e w s :
  0 <= s <= 8191 -> Z.shiftr (pack t e w s) 13 = upper t e w.
Proof.
  intros Hs. rewrite Z.shiftr_div_pow2, pack_upper by lia.
  change (2 ^ 13) with 8192. Z.div_mod_to_equations. lia.
Qed.

(** Calls whose readings all fall in the stored millisecond, with sequence
    numbers left for each of them. *)
Lemma NextIDs_same_milli clock : forall g,
  Forall (fun nano => millis nano = ts g) clock ->
  0 <= seq g -> seq g + Z.of_nat (length clock) <= 8191 ->
  exists ids g',
    NextIDs (length clock) g clock = Some (ids, g', []) /\
    map sequenceField ids =
      map (fun i => seq g + 1 + Z.of_nat i) (List.seq 0 (length clock)) /\
    Forall (fun id => timestampField id =
                      upper (ts g) (fepoch g) (workerID g) / 1024) ids.
Proof.
  induction clock as [| nano clock IH]; intros g Hall Hlo Hhi.
  - exists [], g. repeat split; constructor.
  - apply Forall_cons_iff in Hall. destruct Hall as [Hnano Hall].
    simpl length in *. rewrite Nat2Z.inj_succ in Hhi.
    cbn [NextIDs]. rewrite NextID_same_milli by lia.
    set (g1 := {| seq := seq g + 1; ts := ts g;
                  fepoch := fepoch g; workerID := workerID g |}).
    destruct (IH g1) as (ids & g' & Hrun & Hseq & Hts);
      [exact Hall | simpl; lia | simpl; lia |].
    rewrite Hrun. eexists _, g'. split; [reflexivity |]. split.
    + cbn [map List.seq]. rewrite sequenceField_pack by lia.
      f_equal; [simpl; lia |].
      rewrite Hseq, <- List.seq_shift, List.map_map.
      apply List.map_ext. intros i. simpl. lia.
    + constructor; [apply timestampField_pack; lia | exact Hts].
Qed.



(** ** Base64 of eight bytes *)

Lemma byte_is_byte z : is_byte (byte z).
Proof. unfold is_byte, byte. apply Z.mod_pos_bound. lia. Qed.

Lemma sextet_range x : 0 <= Z.land x 63 < 64.
Proof.
  change 63 with (Z.ones 6). rewrite Z.land_ones by lia.
  apply Z.mod_pos_bound. lia.
Qed.

(** The alphabet has no repeated character: decoding a character of the
    alphabet gives its index back. *)
Lemma decodeMap_encode i :
  0 <= i < 64 -> base64.decodeMap (base64.encode i) = i.
Proof.
  intros Hi. rewrite <- (Z2Nat.id i) by lia.
  assert (Hn : (Z.to_nat i < 64)%nat) by lia.
  generalize dependent (Z.to_nat i). intros n Hn.
  do 64 (destruct n as [| n]; [vm_compute; reflexivity |]). lia.
Qed.

Lemma testbit_high val n i :
  0 <= val < 2 ^ n -> 0 <= n <= i -> Z.testbit val i = false.
Proof.
  intros H Hi. rewrite <- (Z.mod_small val (2 ^ n)) by lia.
  apply Z.mod_pow2_bits_high. lia.
Qed.

(** The four sextets of a 24-bit value put it together again. *)
Lemma sextets_join val :
  0 <= val < 2 ^ 24 ->
  Z.lor (Z.lor (Z.lor (Z.shiftl (Z.land (Z.shiftr val 18) 63) 18)
                      (Z.shiftl (Z.land (Z.shiftr val 12) 63) 12))
               (Z.shiftl (Z.land (Z.shiftr val 6) 63) 6))
        (Z.land val 63) = val.
Proof.
  intros H. change 63 with (Z.ones 6). Z.bitblast.
  match goal with
  | |- context [Z.testbit val ?i] => rewrite (testbit_high val 24 i) by lia
  end.
  reflexivity.
Qed.

Lemma three_bytes b0 b1 b2 :
  is_byte b0 -> is_byte b1 -> is_byte b2 ->
  Z.lor (Z.lor (Z.shiftl b0 16) (Z.shiftl b1 8)) b2 = b0 * 65536 + b1 * 256 + b2.
Proof.
  unfold is_byte. intros H0 H1 H2. rewrite !Z.shiftl_mul_pow2 by lia.
  rewrite (lor_low b0 (b1 * 2 ^ 8) 16) by lia.
  replace (b0 * 2 ^ 16 + b1 * 2 ^ 8) with ((b0 * 256 + b1) * 2 ^ 8) by lia.
  rewrite lor_low by lia. lia.
Qed.

(** A full quantum decodes to the three bytes it encodes. *)
Lemma quantumBytes_full b0 b1 b2 :
  is_byte b0 -> is_byte b1 -> is_byte b2 ->
  let val := Z.lor (Z.lor (Z.shiftl b0 16) (Z.shiftl b1 8)) b2 in
  base64.quantumBytes
    [Z.land (Z.shiftr val 18) 63; Z.land (Z.shiftr val 12) 63;
     Z.land (Z.shiftr val 6) 63; Z.land val 63] = [b0; b1; b2].
Proof.
  intros H0 H1 H2 val. unfold base64.quantumBytes. cbn [nth length firstn Nat.sub].
  assert (Hval : val = b0 * 65536 + b1 * 256 + b2) by (apply three_bytes; assumption).
  unfold is_byte in *.
  rewrite sextets_join by lia.
  unfold byte. rewrite !Z.shiftr_div_pow2 by lia. rewrite Hval.
  change (2 ^ 16) with 65536. change (2 ^ 8) with 256. change (2 ^ 0) with 1.
  repeat f_equal; Z.div_mod_to_equations; lia.
Qed.

(** A padded quantum of three sextets decodes to the two bytes it encodes. *)
Lemma quantumBytes_two b0 b1 :
  is_byte b0 -> is_byte b1 ->
  let val := Z.lor (Z.shiftl b0 16) (Z.shiftl b1 8) in
  base64.quantumBytes
    [Z.land (Z.shiftr val 18) 63; Z.land (Z.shiftr val 12) 63;
     Z.land (Z.shiftr val 6) 63] = [b0; b1].
Proof.
  intros H0 H1 val. unfold base64.quantumBytes. cbn [nth length firstn Nat.sub].
  assert (Hval : val = b0 * 65536 + b1 * 256 + 0).
  { unfold val. rewrite <- (Z.lor_0_r (Z.lor _ _)).
    apply three_bytes; unfold is_byte in *; lia. }
  unfold is_byte in *.
  assert (Hlow : Z.land val 63 = 0).
  { change 63 with (Z.ones 6). rewrite Z.land_ones, Hval by lia.
    change (2 ^ 6) with 64. Z.div_mod_to_equations. lia. }
  pose proof (sextets_join val) as Hjoin. rewrite Hlow in Hjoin.
  rewrite !Hjoin by lia.
  unfold byte. rewrite !Z.shiftr_div_pow2 by lia. rewrite Hval.
  change (2 ^ 16) with 65536. change (2 ^ 8) with 256.
  repeat f_equal; Z.div_mod_to_equations; lia.
Qed.

(** Reading a character of the alphabet: its sextet joins the quantum; the
    fourth one closes it. *)
Lemma decodeFrom_sextet dbuf i src :
  0 <= i < 64 ->
  base64.decodeFrom dbuf (base64.encode i :: src) =
  match dbuf with
  | [_; _; _] =>
    let '(bs, err) := base64.decodeFrom [] src in
    (base64.quantumBytes (dbuf ++ [i]) ++ bs, err)
  | _ => base64.decodeFrom (dbuf ++ [i]) src
  end.
Proof.
  intros Hi. cbn [base64.decodeFrom]. rewrite decodeMap_encode by exact Hi.
  destruct (Z.eqb_spec i 255); [lia | reflexivity].
Qed.

Lemma decodeFrom_last_pad s0 s1 s2 :
  base64.decodeFrom [s0; s1; s2] [base64.padChar] =
  (base64.quantumBytes [s0; s1; s2], None).
Proof. reflexivity. Qed.

(** Decoding inverts encoding on eight bytes. *)
Lemma DecodeString_EncodeToString_8 b0 b1 b2 b3 b4 b5 b6 b7 :
  is_byte b0 -> is_byte b1 -> is_byte b2 -> is_byte b3 ->
  is_byte b4 -> is_byte b5 -> is_byte b6 -> is_byte b7 ->
  base64.DecodeString (base64.EncodeToString [b0; b1; b2; b3; b4; b5; b6; b7]) =
  ([b0; b1; b2; b3; b4; b5; b6; b7], None).
Proof.
  intros H0 H1 H2 H3 H4 H5 H6 H7.
  unfold base64.DecodeString, base64.EncodeToString.
  rewrite list_ascii_of_string_of_list_ascii.
  cbn [base64.Encode].
  repeat (rewrite decodeFrom_sextet by apply sextet_range; cbn [app]).
  rewrite decodeFrom_last_pad.
  rewrite !quantumBytes_full, quantumBytes_two by assumption.
  reflexivity.
Qed.

(** ** Eight bytes and a 64-bit value *)

Lemma uint64_int64_shiftl b k :
  is_byte b -> 0 <= k <= 56 -> uint64 (int64 (Z.shiftl b k)) = Z.shiftl b k.
Proof.
  unfold is_byte. intros Hb Hk. rewrite uint64_int64.
  apply uint64_small. rewrite Z.shiftl_mul_pow2 by lia.
  split; [apply Z.mul_nonneg_nonneg; lia |].
  apply Z.lt_le_trans with (256 * 2 ^ k).
  - apply Z.mul_lt_mono_pos_r; lia.
  - change 256 with (2 ^ 8). rewrite <- Z.pow_add_r by lia.
    apply Z.pow_le_mono_r; lia.
Qed.

(** On bytes the [int64] arithmetic of [assemble] loses nothing. *)
Lemma assemble_bytes b0 b1 b2 b3 b4 b5 b6 b7 :
  is_byte b0 -> is_byte b1 -> is_byte b2 -> is_byte b3 ->
  is_byte b4 -> is_byte b5 -> is_byte b6 -> is_byte b7 ->
  assemble b0 b1 b2 b3 b4 b5 b6 b7 =
  Z.lor (Z.lor (Z.lor (Z.lor (Z.lor (Z.lor (Z.lor
    (Z.shiftl b0 56) (Z.shiftl b1 48)) (Z.shiftl b2 40)) (Z.shiftl b3 32))
    (Z.shiftl b4 24)) (Z.shiftl b5 16)) (Z.shiftl b6 8)) b7.
Proof.
  intros H0 H1 H2 H3 H4 H5 H6 H7. unfold assemble.
  rewrite !uint64_lor, !uint64_int64_shiftl by (assumption || lia).
  rewrite (uint64_small b7) by (unfold is_byte in H7; lia).
  reflexivity.
Qed.

(** Eight bytes shifted into place share no bit: or-ing them is adding. *)
Lemma lor_bytes_sum b0 b1 b2 b3 b4 b5 b6 b7 :
  is_byte b0 -> is_byte b1 -> is_byte b2 -> is_byte b3 ->
  is_byte b4 -> is_byte b5 -> is_byte b6 -> is_byte b7 ->
  Z.lor (Z.lor (Z.lor (Z.lor (Z.lor (Z.lor (Z.lor
    (Z.shiftl b0 56) (Z.shiftl b1 48)) (Z.shiftl b2 40)) (Z.shiftl b3 32))
    (Z.shiftl b4 24)) (Z.shiftl b5 16)) (Z.shiftl b6 8)) b7 =
  b0 * 2 ^ 56 + b1 * 2 ^ 48 + b2 * 2 ^ 40 + b3 * 2 ^ 32 +
  b4 * 2 ^ 24 + b5 * 2 ^ 16 + b6 * 2 ^ 8 + b7.
Proof.
  unfold is_byte. intros H0 H1 H2 H3 H4 H5 H6 H7.
  rewrite !Z.shiftl_mul_pow2 by lia.
  rewrite (lor_low b0 (b1 * 2 ^ 48) 56) by lia.
  replace (b0 * 2 ^ 56 + b1 * 2 ^ 48) with ((b0 * 2 ^ 8 + b1) * 2 ^ 48) by lia.
  rewrite (lor_low _ (b2 * 2 ^ 40) 48) by lia.
  replace ((b0 * 2 ^ 8 + b1) * 2 ^ 48 + b2 * 2 ^ 40)
    with ((b0 * 2 ^ 16 + b1 * 2 ^ 8 + b2) * 2 ^ 40) by lia.
  rewrite (lor_low _ (b3 * 2 ^ 32) 40) by lia.
  replace ((b0 * 2 ^ 16 + b1 * 2 ^ 8 + b2) * 2 ^ 40 + b3 * 2 ^ 32)
    with ((b0 * 2 ^ 24 + b1 * 2 ^ 16 + b2 * 2 ^ 8 + b3) * 2 ^ 32) by lia.
  rewrite (lor_low _ (b4 * 2 ^ 24) 32) by lia.
  replace ((b0 * 2 ^ 24 + b1 * 2 ^ 16 + b2 * 2 ^ 8 + b3) * 2 ^ 32 + b4 * 2 ^ 24)
    with ((b0 * 2 ^ 32 + b1 * 2 ^ 24 + b2 * 2 ^ 16 + b3 * 2 ^ 8 + b4) * 2 ^ 24)
    by lia.
  rewrite (lor_low _ (b5 * 2 ^ 16) 24) by lia.
  replace ((b0 * 2 ^ 32 + b1 * 2 ^ 24 + b2 * 2 ^ 16 + b3 * 2 ^ 8 + b4) * 2 ^ 24
           + b5 * 2 ^ 16)
    with ((b0 * 2 ^ 40 + b1 * 2 ^ 32 + b2 * 2 ^ 24 + b3 * 2 ^ 16 + b4 * 2 ^ 8 + b5)
          * 2 ^ 16) by lia.
  rewrite (lor_low _ (b6 * 2 ^ 8) 16) by lia.
  replace ((b0 * 2 ^ 40 + b1 * 2 ^ 32 + b2 * 2 ^ 24 + b3 * 2 ^ 16 + b4 * 2 ^ 8 + b5)
           * 2 ^ 16 + b6 * 2 ^ 8)
    with ((b0 * 2 ^ 48 + b1 * 2 ^ 40 + b2 * 2 ^ 32 + b3 * 2 ^ 24 + b4 * 2 ^ 16
           + b5 * 2 ^ 8 + b6) * 2 ^ 8) by lia.
  rewrite (lor_low _ b7 8) by lia.
  lia.
Qed.

(** The bytes of [ToBytes] are the digits of the value in base 256. *)
Lemma digits_sum x :
  0 <= x < 2 ^ 64 ->
  byte (Z.shiftr x 56) * 2 ^ 56 + byte (Z.shiftr x 48) * 2 ^ 48 +
  byte (Z.shiftr x 40) * 2 ^ 40 + byte (Z.shiftr x 32) * 2 ^ 32 +
  byte (Z.shiftr x 24) * 2 ^ 24 + byte (Z.shiftr x 16) * 2 ^ 16 +
  byte (Z.shiftr x 8) * 2 ^ 8 + byte x = x.
Proof.
  intros Hx. unfold byte. rewrite !Z.shiftr_div_pow2 by lia.
  change (2 ^ 56) with 72057594037927936.
  change (2 ^ 48) with 281474976710656.
  change (2 ^ 40) with 1099511627776.
  change (2 ^ 32) with 4294967296.
  change (2 ^ 24) with 16777216.
  change (2 ^ 16) with 65536.
  change (2 ^ 8) with 256.
  change (2 ^ 64) with 18446744073709551616 in Hx.
  Z.div_mod_to_equations. lia.
Qed.

Lemma bytes_join x :
  0 <= x < 2 ^ 64 ->
  Z.lor (Z.lor (Z.lor (Z.lor (Z.lor (Z.lor (Z.lor
    (Z.shiftl (byte (Z.shiftr x 56)) 56)
    (Z.shiftl (byte (Z.shiftr x 48)) 48))
    (Z.shiftl (byte (Z.shiftr x 40)) 40))
    (Z.shiftl (byte (Z.shiftr x 32)) 32))
    (Z.shiftl (byte (Z.shiftr x 24)) 24))
    (Z.shiftl (byte (Z.shiftr x 16)) 16))
    (Z.shiftl (byte (Z.shiftr x 8)) 8))
    (byte x) = x.
Proof.
  intros Hx. rewrite lor_bytes_sum by apply byte_is_byte.
  apply digits_sum. exact Hx.
Qed.

(** ** The text form *)

Lemma ToBytes_is_byte id : Forall is_byte (ToBytes id).
Proof. unfold ToBytes. repeat constructor; apply byte_is_byte. Qed.

(** C2.  For every 64-bit value [x], from 0 to [2^64 - 1], putting the
    eight bytes of [ToBytes x] together again gives [x], and [FromString]
    on [ToString x] returns without error and yields [x]. *)
Theorem FromString_ToString (x : FlakeID) :
  0 <= x < 2 ^ 64 ->
  (match ToBytes x with
   | [b0; b1; b2; b3; b4; b5; b6; b7] => assemble b0 b1 b2 b3 b4 b5 b6 b7 = x
   | _ => False
   end) /\
  FromString (ToString x) = Ok x.
Proof.
  intros Hx.
  assert (Hbytes : assemble (byte (Z.shiftr x 56)) (byte (Z.shiftr x 48))
                     (byte (Z.shiftr x 40)) (byte (Z.shiftr x 32))
                     (byte (Z.shiftr x 24)) (byte (Z.shiftr x 16))
                     (byte (Z.shiftr x 8)) (byte x) = x).
  { rewrite assemble_bytes by apply byte_is_byte. apply bytes_join. exact Hx. }
  split; [exact Hbytes |].
  unfold FromString, ToString, ToBytes.
  rewrite DecodeString_EncodeToString_8 by apply byte_is_byte.
  rewrite Hbytes. reflexivity.
Qed.

Lemma FromString_ToString_witness :
  FromString (ToString 0) = Ok 0 /\
  FromString (ToString (2 ^ 64 - 1)) = Ok (2 ^ 64 - 1) /\
  ToString 0 = "AAAAAAAAAAA="%string /\
  ToString (2 ^ 64 - 1) = "__________8="%string.
Proof.
  split; [apply (FromString_ToString 0); lia |].
  split; [apply (FromString_ToString (2 ^ 64 - 1)); lia |].
  split; reflexivity.
Defined.

Lemma length_string_of_list_ascii l :
  String.length (string_of_list_ascii l) = length l.
Proof. induction l as [| c l IH]; simpl; [reflexivity | f_equal; exact IH]. Qed.

Lemma list_ind3 {A} (P : list A -> Prop) :
  P [] -> (forall a, P [a]) -> (forall a b, P [a; b]) ->
  (forall a b c l, P l -> P (a :: b :: c :: l)) ->
  forall l, P l.
Proof.
  intros H0 H1 H2 H3.
  assert (H : forall l, P l /\ (forall a, P (a :: l)) /\
                        (forall a b, P (a :: b :: l))).
  { induction l as [| x l (IH0 & IH1 & IH2)]; repeat split; auto. }
  intros l. apply H.
Qed.

(** Padded base64 takes four characters for every three bytes begun. *)
Lemma Encode_length src :
  length (base64.Encode src) = (4 * ((length src + 2) / 3))%nat.
Proof.
  induction src as [| a | a b | a b c src IH] using list_ind3;
    try reflexivity.
  cbn [base64.Encode length]. rewrite IH.
  replace (S (S (S (length src))) + 2)%nat with (length src + 2 + 1 * 3)%nat by lia.
  rewrite Nat.div_add by lia. lia.
Qed.

(** C10.  The text form of every identifier has exactly 12 characters:
    the eight bytes of [ToBytes] in padded base64, the last character being
    the padding. *)
Theorem ToString_length (id : FlakeID) :
  String.length (ToString id) = 12%nat /\
  String.get 11 (ToString id) = Some base64.padChar.
Proof.
  split.
  - unfold ToString, base64.EncodeToString.
    rewrite length_string_of_list_ascii, Encode_length. reflexivity.
  - reflexivity.
Qed.

(** ** Batch minting *)

(** [make] serves a length inside both limits. *)
Lemma makeBytes_served heap n :
  0 <= n -> 8 * n <= maxAlloc -> 8 * n <= heap ->
  makeBytes heap (uint64 (n * 8)) = Allocated (repeat 0 (8 * Z.to_nat n)).
Proof.
  unfold maxAlloc. intros Hn Hmax Hheap. unfold makeBytes, maxAlloc.
  rewrite (uint64_small (n * 8)) by lia.
  destruct (Z.ltb_spec (2 ^ 48) (n * 8)); [lia |].
  destruct (Z.ltb_spec heap (n * 8)); [lia |].
  replace (Z.to_nat (n * 8)) with (8 * Z.to_nat n)%nat by lia. reflexivity.
Qed.

(** A store behind the prefix [pre], inside the slice. *)
Lemma store_app (pre cell : list Z) (k v : Z) :
  0 <= k < Z.of_nat (length cell) ->
  Z.of_nat (length pre) + k < 2 ^ 64 ->
  store (pre ++ cell) (uint64 (Z.of_nat (length pre) + k)) v =
  Some (pre ++ <[Z.to_nat k := v]> cell).
Proof.
  intros Hk Hfit. unfold store.
  rewrite uint64_small by lia.
  rewrite length_app, Nat2Z.inj_add.
  destruct (Z.leb_spec 0 (Z.of_nat (length pre) + k)); [| lia].
  destruct (Z.ltb_spec (Z.of_nat (length pre) + k)
                       (Z.of_nat (length pre) + Z.of_nat (length cell))); [| lia].
  simpl. f_equal.
  replace (Z.to_nat (Z.of_nat (length pre) + k))
    with (length pre + Z.to_nat k)%nat by lia.
  apply insert_app_r.
Qed.

(** One iteration writes the eight bytes of [ToBytes id] at its offset. *)
Lemma putID_app (pre rest : list Z) (off : Z) (id : FlakeID) z0 z1 z2 z3 z4 z5 z6 z7 :
  off = Z.of_nat (length pre) -> off + 8 <= 2 ^ 64 ->
  putID (pre ++ z0 :: z1 :: z2 :: z3 :: z4 :: z5 :: z6 :: z7 :: rest) off id =
  Some (pre ++ ToBytes id ++ rest).
Proof.
  intros -> Hfit. unfold putID.
  repeat (rewrite store_app by (cbn [length]; lia); simpl).
  reflexivity.
Qed.

(** The loop after [k] iterations: [pre] holds the [8 * k] bytes written so
    far, the rest of the slice is still zero. *)
Lemma GenMulti_loop_spec (todo : nat) : forall (k : nat) g clock pre,
  length pre = (8 * k)%nat ->
  8 * (Z.of_nat k + Z.of_nat todo) < 2 ^ 64 ->
  GenMulti_loop todo (Z.of_nat k) g clock (pre ++ repeat 0 (8 * todo)) =
  match NextIDs todo g clock with
  | Some (ids, g', clock') => Done (pre ++ concat (map ToBytes ids), g', clock')
  | None => OutOfClock
  end.
Proof.
  induction todo as [| todo IH]; intros k g clock pre Hlen Hfit.
  - simpl. rewrite !app_nil_r. reflexivity.
  - cbn [GenMulti_loop NextIDs].
    destruct (NextID g clock) as [[[id g1] clock1] |]; [| reflexivity].
    replace (8 * S todo)%nat with (8 + 8 * todo)%nat by lia.
    rewrite repeat_app. cbn [repeat app].
    rewrite (uint64_small (Z.of_nat k * 8)) by lia.
    rewrite putID_app by lia.
    rewrite (uint64_small (Z.of_nat k + 1)) by lia.
    replace (Z.of_nat k + 1) with (Z.of_nat (S k)) by lia.
    rewrite (app_assoc pre (ToBytes id)).
    rewrite IH; [| rewrite length_app; simpl; lia | lia].
    destruct (NextIDs todo g1 clock1) as [[[ids g2] clock2] |]; [| reflexivity].
    cbn [map concat]. rewrite <- !app_assoc. reflexivity.
Qed.

Lemma length_concat_ToBytes ids :
  Z.of_nat (length (concat (map ToBytes ids))) = 8 * Z.of_nat (length ids).
Proof.
  induction ids as [| id ids IH]; [reflexivity |].
  cbn [map concat]. rewrite length_app. cbn [ToBytes length].
  rewrite Nat2Z.inj_add, IH. lia.
Qed.

Lemma NextIDs_length n : forall g clock ids g' clock',
  NextIDs n g clock = Some (ids, g', clock') -> length ids = n.
Proof.
  induction n as [| n IH]; intros g clock ids g' clock' H; simpl in H.
  - injection H as <- _ _. reflexivity.
  - destruct (NextID g clock) as [[[id g1] clock1] |]; [| discriminate].
    destruct (NextIDs n g1 clock1) as [[[ids1 g2] clock2] |] eqn:Hrest;
      [| discriminate].
    injection H as <- _ _. simpl. f_equal. eapply IH. exact Hrest.
Qed.

(** On a clock that moves on by at least a millisecond per reading every
    call returns with one reading. *)
Lemma NextIDs_returns n : forall g clock,
  advancing (ts g) clock -> (n <= length clock)%nat ->
  exists ids g', NextIDs n g clock = Some (ids, g', skipn n clock).
Proof.
  induction n as [| n IH]; intros g clock Hadv Hlen.
  - exists [], g. reflexivity.
  - destruct clock as [| nano clock]; [simpl in Hlen; lia |].
    unfold advancing in Hadv. simpl in Hadv.
    apply StronglySorted_inv in Hadv. destruct Hadv as [Hsorted Hfirst].
    apply Forall_cons_iff in Hfirst. destruct Hfirst as [Hnano _].
    cbn [NextIDs]. rewrite NextID_other_milli by lia.
    destruct (IH {| seq := 0; ts := millis nano;
                    fepoch := fepoch g; workerID := workerID g |} clock)
      as (ids & g' & Hrun); [exact Hsorted | simpl in Hlen; lia |].
    rewrite Hrun. eexists _, g'. reflexivity.
Qed.

(** C8, as the code has it.  For a count [n] whose byte length [8 * n]
    the runtime can allocate (at most its limit [maxAlloc], 2^48 bytes, and
    at most the memory [heap] it has left), [GenMulti n] is [n] successive
    calls of [NextID]: it returns [8 * n] bytes, the concatenation in call
    order of the big-endian [ToBytes] of the identifiers, and leaves the
    generator and the clock as the [n] calls leave them; it has no result
    exactly when the calls have none, and it returns whenever the clock
    moves on by a millisecond per reading for [n] readings. *)
Theorem GenMulti_is_NextIDs (heap : Z) (g : Gen) (clock : list Z) (n : Z) :
  0 <= n -> 8 * n <= maxAlloc -> 8 * n <= heap ->
  match NextIDs (Z.to_nat n) g clock with
  | Some (ids, g', clock') =>
    GenMulti heap g clock n = Done (concat (map ToBytes ids), g', clock') /\
    Z.of_nat (length (concat (map ToBytes ids))) = 8 * n
  | None => GenMulti heap g clock n = OutOfClock
  end /\
  (advancing (ts g) clock -> n <= Z.of_nat (length clock) ->
   exists bs g' clock', GenMulti heap g clock n = Done (bs, g', clock')).
Proof.
  intros Hn Hmax Hheap.
  assert (Hmain :
    match NextIDs (Z.to_nat n) g clock with
    | Some (ids, g', clock') =>
      GenMulti heap g clock n = Done (concat (map ToBytes ids), g', clock') /\
      Z.of_nat (length (concat (map ToBytes ids))) = 8 * n
    | None => GenMulti heap g clock n = OutOfClock
    end); [| split; [exact Hmain |];
             intros Hadv Hlen;
             destruct (NextIDs_returns (Z.to_nat n) g clock Hadv) as (ids & g' & Hrun);
             [lia |]; rewrite Hrun in Hmain; destruct Hmain as [Hdone _];
             eexists _, _, _; exact Hdone].
  unfold GenMulti. rewrite makeBytes_served by assumption.
  pose proof (GenMulti_loop_spec (Z.to_nat n) 0 g clock []) as Hloop.
  cbn [app] in Hloop. change (Z.of_nat 0) with 0 in Hloop.
  unfold maxAlloc in Hmax.
  rewrite Hloop by (simpl; lia).
  destruct (NextIDs (Z.to_nat n) g clock) as [[[ids g'] clock'] |] eqn:Hrun;
    [| reflexivity].
  split; [reflexivity |].
  rewrite length_concat_ToBytes.
  apply NextIDs_length in Hrun. lia.
Qed.

Lemma GenMulti_is_NextIDs_witness :
  GenMulti 4096 {| seq := -1; ts := -1; fepoch := 1234567891011; workerID := 123 |}
           [1700000000000000000; 1700000000000000001] 2 =
  Done ([54; 46; 245; 47; 222; 143; 96; 0; 54; 46; 245; 47; 222; 143; 96; 1],
        {| seq := 1; ts := 1700000000000; fepoch := 1234567891011; workerID := 123 |},
        []).
Proof.
  pose proof (GenMulti_is_NextIDs 4096
    {| seq := -1; ts := -1; fepoch := 1234567891011; workerID := 123 |}
    [1700000000000000000; 1700000000000000001] 2) as H.
  change (NextIDs (Z.to_nat 2) _ _)
    with (Some ([3904327512923004928; 3904327512923004929],
                {| seq := 1; ts := 1700000000000;
                   fepoch := 1234567891011; workerID := 123 |},
                @nil Z)) in H.
  destruct H as [[H _] _]; [lia | unfold maxAlloc; lia | lia |]. exact H.
Defined.

(** C8 as it is stated, for every count, fails.  For [n = 2^61] the length
    [n * 8] wraps to 0, the slice is empty, and the first store panics after
    the first [NextID].  For [n = 2^58] the length is above [maxAlloc] and
    [make] panics.  For a length the heap cannot provide the run ends in the
    fatal out-of-memory error. *)
Lemma GenMulti_panics_on_wrapped_length :
  GenMulti (2 ^ 30)
           {| seq := -1; ts := -1; fepoch := 1234567891011; workerID := 123 |}
           [1700000000000000000] (2 ^ 61) = Panicked /\
  GenMulti (2 ^ 30)
           {| seq := -1; ts := -1; fepoch := 1234567891011; workerID := 123 |}
           [1700000000000000000] (2 ^ 58) = Panicked /\
  GenMulti (2 ^ 30)
           {| seq := -1; ts := -1; fepoch := 1234567891011; workerID := 123 |}
           [1700000000000000000] (2 ^ 28) = OutOfMemory.
Proof.
  split; [| split; reflexivity].
  unfold GenMulti.
  change (makeBytes (2 ^ 30) (uint64 (2 ^ 61 * 8))) with (Allocated []).
  cbv iota.
  destruct (Z.to_nat (2 ^ 61)) as [| todo] eqn:Htodo; [lia |].
  reflexivity.
Qed.

(** ** The decoder and the grammar *)

Lemma isNewline_not_alphabet c :
  base64.isNewline c = true -> base64.decodeMap c = 255.
Proof.
  unfold base64.isNewline. intros H. apply orb_true_iff in H.
  destruct H as [H | H]; apply Ascii.eqb_eq in H; subst c; reflexivity.
Qed.

Lemma stripNewlines_newline c l :
  base64.isNewline c = true -> stripNewlines (c :: l) = stripNewlines l.
Proof. intros H. unfold stripNewlines. simpl. rewrite H. reflexivity. Qed.

Lemma stripNewlines_other c l :
  base64.isNewline c = false -> stripNewlines (c :: l) = c :: stripNewlines l.
Proof. intros H. unfold stripNewlines. simpl. rewrite H. reflexivity. Qed.

Lemma skipNewlines_strip l :
  stripNewlines (base64.skipNewlines l) = stripNewlines l.
Proof.
  induction l as [| c l IH]; [reflexivity |].
  cbn [base64.skipNewlines]. destruct (base64.isNewline c) eqn:Hc.
  - rewrite (stripNewlines_newline c l Hc). exact IH.
  - reflexivity.
Qed.

Lemma skipNewlines_head l c l' :
  base64.skipNewlines l = c :: l' -> base64.isNewline c = false.
Proof.
  induction l as [| x l IH]; cbn [base64.skipNewlines]; [discriminate |].
  destruct (base64.isNewline x) eqn:Hx; [exact IH |].
  intros H. injection H as <- _. exact Hx.
Qed.

Lemma skipNewlines_clean c l :
  base64.isNewline c = false -> base64.skipNewlines (c :: l) = c :: l.
Proof. intros H. cbn [base64.skipNewlines]. rewrite H. reflexivity. Qed.

Lemma afterPadding_strip l :
  base64.afterPadding (stripNewlines l) = base64.afterPadding l.
Proof.
  unfold base64.afterPadding.
  induction l as [| c l IH]; [reflexivity |].
  cbn [base64.skipNewlines]. destruct (base64.isNewline c) eqn:Hc.
  - rewrite (stripNewlines_newline c l Hc). exact IH.
  - rewrite (stripNewlines_other c l Hc), (skipNewlines_clean _ _ Hc).
    reflexivity.
Qed.

(** The decoder does not see carriage returns and line feeds. *)
Lemma decodeFrom_strip l : forall dbuf,
  base64.decodeFrom dbuf (stripNewlines l) = base64.decodeFrom dbuf l.
Proof.
  induction l as [| c l IH]; intros dbuf; [reflexivity |].
  destruct (base64.isNewline c) eqn:Hc.
  - rewrite (stripNewlines_newline c l Hc).
    cbn [base64.decodeFrom].
    rewrite (isNewline_not_alphabet c Hc), Hc. simpl negb. cbv iota. apply IH.
  - rewrite (stripNewlines_other c l Hc).
    cbn [base64.decodeFrom]. rewrite Hc.
    destruct (negb (base64.decodeMap c =? 255)).
    + rewrite !IH. reflexivity.
    + destruct (negb (Ascii.eqb c base64.padChar)); [reflexivity |].
      destruct dbuf as [| d0 [| d1 [| d2 dbuf]]]; try reflexivity.
      * destruct (base64.skipNewlines l) as [| c' l'] eqn:Hl.
        -- pose proof (skipNewlines_strip l) as Hs. rewrite Hl in Hs.
           rewrite <- Hs. reflexivity.
        -- pose proof (skipNewlines_head _ _ _ Hl) as Hc'.
           pose proof (skipNewlines_strip l) as Hs. rewrite Hl in Hs.
           rewrite (stripNewlines_other c' l' Hc') in Hs. rewrite <- Hs.
           rewrite (skipNewlines_clean _ _ Hc'), afterPadding_strip.
           reflexivity.
      * rewrite afterPadding_strip. reflexivity.
Qed.

Lemma list_ind4 {A} (P : list A -> Prop) :
  P [] -> (forall a, P [a]) -> (forall a b, P [a; b]) ->
  (forall a b c, P [a; b; c]) ->
  (forall a b c d l, P l -> P (a :: b :: c :: d :: l)) ->
  forall l, P l.
Proof.
  intros H0 H1 H2 H3 H4.
  assert (H : forall l, P l /\ (forall a, P (a :: l)) /\
                        (forall a b, P (a :: b :: l)) /\
                        (forall a b c, P (a :: b :: c :: l))).
  { induction l as [| x l (IH0 & IH1 & IH2 & IH3)].
    - repeat split; auto.
    - repeat split; auto. }
  intros l. apply H.
Qed.

Lemma pad_not_alphabet c : isPad c = true -> inAlphabet c = false.
Proof.
  unfold isPad. intros H. apply Ascii.eqb_eq in H. subst c. reflexivity.
Qed.

Lemma afterPadding_clean l :
  Forall (fun c => base64.isNewline c = false) l ->
  base64.afterPadding l = if isNil l then None else Some base64.CorruptInputError.
Proof.
  unfold base64.afterPadding. intros H.
  destruct l as [| c l]; [reflexivity |].
  apply Forall_cons_iff in H. destruct H as [Hc _].
  simpl. rewrite Hc. reflexivity.
Qed.

Lemma length_quantumBytes dbuf :
  (length dbuf <= 4)%nat ->
  length (base64.quantumBytes dbuf) = (length dbuf - 1)%nat.
Proof.
  intros H. unfold base64.quantumBytes. rewrite length_firstn. simpl. lia.
Qed.

(** One character that is no newline, by its class: of the alphabet,
    padding, or anything else. *)
Lemma decodeFrom_cons dbuf c l :
  base64.isNewline c = false ->
  base64.decodeFrom dbuf (c :: l) =
  if inAlphabet c then
    match dbuf with
    | [_; _; _] =>
      let '(bs, err) := base64.decodeFrom [] l in
      (base64.quantumBytes (dbuf ++ [base64.decodeMap c]) ++ bs, err)
    | _ => base64.decodeFrom (dbuf ++ [base64.decodeMap c]) l
    end
  else if isPad c then
    match dbuf with
    | [] | [_] => ([], Some base64.CorruptInputError)
    | [_; _] =>
      match base64.skipNewlines l with
      | [] => ([], Some base64.CorruptInputError)
      | c' :: l' =>
        if isPad c'
        then (base64.quantumBytes dbuf, base64.afterPadding l')
        else ([], Some base64.CorruptInputError)
      end
    | _ => (base64.quantumBytes dbuf, base64.afterPadding l)
    end
  else ([], Some base64.CorruptInputError).
Proof.
  intros Hc. cbn [base64.decodeFrom]. rewrite Hc.
  unfold inAlphabet, isPad.
  destruct (negb (base64.decodeMap c =? 255)); [reflexivity |].
  destruct (Ascii.eqb c base64.padChar); reflexivity.
Qed.

Ltac classify c :=
  destruct (inAlphabet c) eqn:?;
  [| destruct (isPad c) eqn:?].

(** On a text without newlines the decoder accepts exactly the valid
    groups, and then yields as many bytes as they stand for. *)
Lemma decodeFrom_validGroups l :
  Forall (fun c => base64.isNewline c = false) l ->
  if validGroups l
  then exists bs, base64.decodeFrom [] l = (bs, None) /\
                  length bs = payloadLength l
  else snd (base64.decodeFrom [] l) = Some base64.CorruptInputError.
Proof.
  induction l as [| a | a b | a b c | a b c d l IH] using list_ind4; intros Hl.
  - exists []. split; reflexivity.
  - apply Forall_cons_iff in Hl. destruct Hl as [Ha _].
    cbn [validGroups]. rewrite decodeFrom_cons by exact Ha.
    classify a; reflexivity.
  - apply Forall_cons_iff in Hl. destruct Hl as [Ha Hl].
    apply Forall_cons_iff in Hl. destruct Hl as [Hb _].
    cbn [validGroups]. rewrite decodeFrom_cons by exact Ha.
    classify a; try reflexivity.
    cbn [app]. rewrite decodeFrom_cons by exact Hb.
    classify b; reflexivity.
  - apply Forall_cons_iff in Hl. destruct Hl as [Ha Hl].
    apply Forall_cons_iff in Hl. destruct Hl as [Hb Hl].
    apply Forall_cons_iff in Hl. destruct Hl as [Hc _].
    cbn [validGroups]. rewrite decodeFrom_cons by exact Ha.
    classify a; try reflexivity.
    cbn [app]. rewrite decodeFrom_cons by exact Hb.
    classify b; try reflexivity.
    cbn [app]. rewrite decodeFrom_cons by exact Hc.
    classify c; reflexivity.
  - apply Forall_cons_iff in Hl. destruct Hl as [Ha Hl].
    apply Forall_cons_iff in Hl. destruct Hl as [Hb Hl].
    apply Forall_cons_iff in Hl. destruct Hl as [Hc Hl].
    apply Forall_cons_iff in Hl. destruct Hl as [Hd Hl].
    specialize (IH Hl).
    cbn [validGroups payloadLength]. rewrite decodeFrom_cons by exact Ha.
    classify a; try reflexivity.
    cbn [app]. rewrite decodeFrom_cons by exact Hb.
    classify b; try reflexivity.
    cbn [app andb]. rewrite decodeFrom_cons by exact Hc.
    classify c.
    + cbn [app]. rewrite decodeFrom_cons by exact Hd.
      classify d.
      * destruct (validGroups l).
        -- destruct IH as (bs & -> & Hlen).
           eexists. split; [reflexivity |].
           rewrite length_app, length_quantumBytes by (simpl; lia).
           simpl. lia.
        -- destruct (base64.decodeFrom [] l) as [bs err]. simpl in *.
           exact IH.
      * cbn [andb]. rewrite afterPadding_clean by exact Hl.
        destruct l; simpl isNil; cbv iota.
        -- eexists. split; [reflexivity |].
           rewrite length_quantumBytes by (simpl; lia). reflexivity.
        -- reflexivity.
      * reflexivity.
    + rewrite (skipNewlines_clean _ _ Hd).
      destruct (isPad d); cbn [andb]; [| reflexivity].
      rewrite afterPadding_clean by exact Hl.
      destruct l; simpl isNil; cbv iota.
      * eexists. split; [reflexivity |].
        rewrite length_quantumBytes by (simpl; lia). reflexivity.
      * reflexivity.
    + reflexivity.
Qed.

(** ** Decoding a text *)

Lemma stripNewlines_clean l :
  Forall (fun c => base64.isNewline c = false) (stripNewlines l).
Proof.
  induction l as [| c l IH]; [constructor |].
  destruct (base64.isNewline c) eqn:Hc.
  - rewrite (stripNewlines_newline c l Hc). exact IH.
  - rewrite (stripNewlines_other c l Hc). constructor; assumption.
Qed.

(** The decoder accepts exactly the valid texts. *)
Lemma DecodeString_valid (s : string) :
  if valid_base64 s
  then exists bs, base64.DecodeString s = (bs, None) /\
                  length bs = payloadLength (stripNewlines (list_ascii_of_string s))
  else snd (base64.DecodeString s) = Some base64.CorruptInputError.
Proof.
  unfold valid_base64, base64.DecodeString.
  rewrite <- decodeFrom_strip.
  apply decodeFrom_validGroups, stripNewlines_clean.
Qed.

(** C3, as the code has it.  [FromString] returns an error exactly when
    its text is not valid URL-safe base64 (groups of four characters of the
    alphabet, the last one possibly padded, carriage returns and line feeds
    apart), and the error is the decoder's.  On a valid text that stands
    for eight bytes or more, [FromString] succeeds with the identifier
    assembled from the first eight decoded bytes, whatever follows them; so
    it succeeds on every decode of exactly eight bytes. *)
Theorem FromString_result (s : string) :
  ((exists e, FromString s = Err e) <-> valid_base64 s = false) /\
  (forall e, FromString s = Err e <-> snd (base64.DecodeString s) = Some e) /\
  (valid_base64 s = true ->
   (8 <= payloadLength (stripNewlines (list_ascii_of_string s)))%nat ->
   exists b0 b1 b2 b3 b4 b5 b6 b7 rest,
     base64.DecodeString s =
       (b0 :: b1 :: b2 :: b3 :: b4 :: b5 :: b6 :: b7 :: rest, None) /\
     FromString s = Ok (assemble b0 b1 b2 b3 b4 b5 b6 b7)) /\
  (forall bs,
     base64.DecodeString s = (bs, None) -> length bs = 8%nat ->
     exists id, FromString s = Ok id).
Proof.
  assert (Herr : forall e,
            FromString s = Err e <-> snd (base64.DecodeString s) = Some e).
  { intros e. unfold FromString.
    destruct (base64.DecodeString s) as [bs [err |]]; simpl.
    - split; intros H; injection H as ->; reflexivity.
    - split; [| discriminate].
      do 8 (destruct bs as [| ? bs]; [discriminate |]). discriminate. }
  pose proof (DecodeString_valid s) as Hvalid.
  split; [| split; [exact Herr | split]].
  - destruct (valid_base64 s).
    + destruct Hvalid as (bs & Hdec & _). split; [| discriminate].
      intros [e He]. apply Herr in He. rewrite Hdec in He. discriminate.
    + split; [reflexivity |]. intros _.
      exists base64.CorruptInputError. apply Herr. exact Hvalid.
  - intros Hv Hlen. rewrite Hv in Hvalid.
    destruct Hvalid as (bs & Hdec & Hbs). rewrite <- Hbs in Hlen.
    do 8 (destruct bs as [| ? bs]; [simpl in Hlen; lia |]).
    eexists _, _, _, _, _, _, _, _, bs. split; [exact Hdec |].
    unfold FromString. rewrite Hdec. reflexivity.
  - intros bs Hdec Hlen. unfold FromString. rewrite Hdec.
    do 8 (destruct bs as [| ? bs]; [simpl in Hlen; lia |]).
    eexists. reflexivity.
Qed.

Lemma FromString_result_witness :
  exists b0 b1 b2 b3 b4 b5 b6 b7 rest,
    base64.DecodeString "YvYL8xoB8AA=" =
      (b0 :: b1 :: b2 :: b3 :: b4 :: b5 :: b6 :: b7 :: rest, None) /\
    FromString "YvYL8xoB8AA=" = Ok (assemble b0 b1 b2 b3 b4 b5 b6 b7).
Proof.
  destruct (FromString_result "YvYL8xoB8AA=") as (_ & _ & H & _).
  apply H; [reflexivity | vm_compute; lia].
Defined.

(** C3 as it is stated fails on both sides of eight bytes: a text that
    decodes to twelve bytes is accepted, and a text that decodes to fewer
    than eight bytes (here none, and seven) makes [FromString] panic on
    [bs[k]] instead of returning an error. *)
Lemma FromString_wrong_length :
  valid_base64 "AAAAAAAAAAAAAAAA" = true /\
  valid_base64 "" = true /\
  valid_base64 "AAAAAAAAAA==" = true /\
  base64.DecodeString "AAAAAAAAAAAAAAAA" = ([0; 0; 0; 0; 0; 0; 0; 0; 0; 0; 0; 0], None) /\
  FromString "AAAAAAAAAAAAAAAA" = Ok 0 /\
  base64.DecodeString "" = ([], None) /\
  FromString "" = Panic /\
  base64.DecodeString "AAAAAAAAAA==" = ([0; 0; 0; 0; 0; 0; 0], None) /\
  FromString "AAAAAAAAAA==" = Panic.
Proof. repeat split; reflexivity. Qed.

(** * Further properties of the code *)

(** ** The clock reading *)

(** X1.  [getTsInfo] splits a reading into its millisecond and the
    nanoseconds left to the next millisecond boundary: sleeping [remain]
    nanoseconds from the reading lands exactly on the first nanosecond of
    the next millisecond, for every reading; from 1970 on the reading lies
    in its millisecond and [remain] is between 1 and 1000000. *)
Theorem getTsInfo_next_milli (nano : Z) :
  let '(milliseconds, remain) := getTsInfo nano in
  nano + remain = (milliseconds + 1) * 1000000 /\
  millis (nano + remain) = milliseconds + 1 /\
  (0 <= nano ->
   milliseconds * 1000000 <= nano < (milliseconds + 1) * 1000000 /\
   0 < remain <= 1000000).
Proof.
  unfold getTsInfo, millis, getTsInfo. cbn [fst].
  pose proof (Z.quot_rem' nano 1000000) as Hqr.
  assert (Hsum : nano + (1000000 - Z.rem nano 1000000) =
                 (Z.quot nano 1000000 + 1) * 1000000) by lia.
  split; [exact Hsum |]. split.
  - rewrite Hsum. apply Z.quot_mul. lia.
  - intros Hpos. pose proof (Z.rem_bound_pos nano 1000000 Hpos). lia.
Qed.

Lemma getTsInfo_next_milli_witness :
  getTsInfo 1700000000000999999 = (1700000000000, 1) /\
  millis (1700000000000999999 + 1) = 1700000000001.
Proof.
  pose proof (getTsInfo_next_milli 1700000000000999999) as H.
  change (getTsInfo 1700000000000999999) with (1700000000000, 1) in H.
  destruct H as (_ & H & _). split; [reflexivity | exact H].
Defined.

(** ** The wait for the next millisecond *)

Lemma waitNextMilli_skips wait : forall last t nano' rest,
  t <= last -> Forall (fun nano => millis nano <= last) wait ->
  last < millis nano' ->
  waitNextMilli last t (wait ++ nano' :: rest) = Some (millis nano', rest).
Proof.
  induction wait as [| nano wait IH]; intros last t nano' rest Ht Hwait Hnext.
  - cbn [app waitNextMilli].
    destruct (Z.leb_spec t last); [| lia].
    fold (millis nano').
    destruct rest; cbn [waitNextMilli];
      destruct (Z.leb_spec (millis nano') last); (lia || reflexivity).
  - apply Forall_cons_iff in Hwait. destruct Hwait as [Hnano Hwait].
    cbn [app waitNextMilli].
    destruct (Z.leb_spec t last); [| lia].
    fold (millis nano). apply IH; assumption.
Qed.

(** X2.  When the sequence is used up in the stored millisecond
    ([seq = 8191]; also the sentinel -1 of a fresh generator read at
    millisecond -1), [NextID] issues nothing in that millisecond: it reads
    the clock past every reading that is not later than [ts], and returns at
    the first later one with the sequence 0 and that millisecond. *)
Theorem NextID_waits_when_exhausted (g : Gen) (nano : Z) (wait : list Z)
        (nano' : Z) (rest : list Z) :
  millis nano = ts g -> seq g = 8191 \/ seq g = -1 ->
  Forall (fun x => millis x <= ts g) wait -> ts g < millis nano' ->
  NextID g (nano :: wait ++ nano' :: rest) =
  Some (pack (millis nano') (fepoch g) (workerID g) 0,
        {| seq := 0; ts := millis nano';
           fepoch := fepoch g; workerID := workerID g |},
        rest).
Proof.
  intros Hsame Hseq Hwait Hnext.
  unfold NextID. cbn [getTsInfo]. fold (millis nano).
  change (Z.quot nano 1000000) with (millis nano).
  rewrite Hsame, Z.eqb_refl, next_seq_mod.
  assert (Hz : (seq g + 1) mod 8192 = 0) by (destruct Hseq as [-> | ->]; reflexivity).
  rewrite Hz. cbn [Z.eqb].
  rewrite waitNextMilli_skips by (assumption || lia).
  reflexivity.
Qed.

Lemma NextID_waits_when_exhausted_witness :
  NextID {| seq := 8191; ts := 1700000000000; fepoch := 1234567891011; workerID := 123 |}
         [1700000000000999000; 1700000000000999500; 1700000000001000000; 7] =
  Some (pack 1700000000001 1234567891011 123 0,
        {| seq := 0; ts := 1700000000001; fepoch := 1234567891011; workerID := 123 |},
        [7]).
Proof.
  apply (NextID_waits_when_exhausted
    {| seq := 8191; ts := 1700000000000; fepoch := 1234567891011; workerID := 123 |}
    1700000000000999000 [1700000000000999500] 1700000000001000000 [7]).
  - reflexivity.
  - left. reflexivity.
  - repeat constructor. simpl. eval_millis. lia.
  - simpl. eval_millis. lia.
Defined.

(** ** A clock that goes back *)

(** X3.  [NextID] can issue one identifier twice when the clock goes back:
    a reading in a new millisecond, a reading in any other millisecond, and
    a reading back in the first millisecond return the same identifier for
    the first and the third call. *)
Theorem NextID_repeats_on_regress (g : Gen) (a b c : Z) (clock : list Z) :
  millis a <> ts g -> millis b <> millis a -> millis c = millis a ->
  exists g',
    NextIDs 3 g (a :: b :: c :: clock) =
    Some ([pack (millis a) (fepoch g) (workerID g) 0;
           pack (millis b) (fepoch g) (workerID g) 0;
           pack (millis a) (fepoch g) (workerID g) 0], g', clock).
Proof.
  intros Ha Hb Hc. cbn [NextIDs].
  rewrite NextID_other_milli by exact Ha.
  rewrite NextID_other_milli by (cbn [ts]; exact Hb).
  rewrite NextID_other_milli by (cbn [ts]; lia).
  cbn [fepoch workerID]. rewrite Hc. eexists. reflexivity.
Qed.

Lemma NextID_repeats_on_regress_witness :
  exists g',
    NextIDs 3 {| seq := -1; ts := -1; fepoch := 1234567891011; workerID := 123 |}
            [1700000000000000000; 1700000000001000000; 1700000000000500000] =
    Some ([pack 1700000000000 1234567891011 123 0;
           pack 1700000000001 1234567891011 123 0;
           pack 1700000000000 1234567891011 123 0], g', []).
Proof.
  apply (NextID_repeats_on_regress
    {| seq := -1; ts := -1; fepoch := 1234567891011; workerID := 123 |}
    1700000000000000000 1700000000001000000 1700000000000500000 []);
    simpl; eval_millis; lia.
Defined.

(** ** What every minted identifier carries *)

Lemma pack_range t e w s : 0 <= pack t e w s < 2 ^ 64.
Proof. unfold pack. apply uint64_range. Qed.

(** The fields of the identifiers of any run, and what the run keeps. *)
Lemma NextIDs_fields (n : nat) : forall (g : Gen) (clock : list Z)
        (ids : list FlakeID) (g' : Gen) (clock' : list Z),
  valid_worker g ->
  NextIDs n g clock = Some (ids, g', clock') ->
  Forall (fun id => workerField id = workerID g /\
                    0 <= sequenceField id <= 8191 /\
                    0 <= id < 2 ^ 64) ids /\
  length ids = n /\ fepoch g' = fepoch g /\ workerID g' = workerID g.
Proof.
  induction n as [| n IH]; intros g clock ids g' clock' Hw H; cbn [NextIDs] in H.
  - injection H as <- <- _. repeat split. constructor.
  - destruct (NextID g clock) as [[[id g1] clock1] |] eqn:Hcall; [| discriminate].
    destruct (NextIDs n g1 clock1) as [[[ids1 g2] clock2] |] eqn:Hrest;
      [| discriminate].
    injection H as <- <- _.
    apply NextID_inv in Hcall. destruct Hcall as (_ & He & Hwk & Hid & Hs & _).
    unfold valid_worker in *.
    destruct (IH g1 clock1 ids1 g2 clock2) as (Hall & Hlen & He2 & Hw2);
      [unfold valid_worker; lia | exact Hrest |].
    split; [| cbn [length]; repeat split; congruence].
    constructor.
    + rewrite Hid. rewrite workerField_pack, sequenceField_pack by lia.
      pose proof (pack_range (ts g1) (fepoch g) (workerID g) (seq g1)). lia.
    + eapply List.Forall_impl; [| exact Hall]. cbn beta. intros x Hx.
      rewrite <- Hwk. exact Hx.
Qed.

(** X4.  Whatever the clock does, every identifier of a generator with a
    worker id in [0, 1023] is a 64-bit value that carries that worker id in
    its worker field and a sequence in [0, 8191]; the calls leave the epoch
    and the worker id of the generator as they are, and each returns one
    identifier. *)
Theorem NextIDs_carry_worker (n : nat) (g : Gen) (clock : list Z)
        (ids : list FlakeID) (g' : Gen) (clock' : list Z) :
  valid_worker g ->
  NextIDs n g clock = Some (ids, g', clock') ->
  Forall (fun id => workerField id = workerID g /\
                    0 <= sequenceField id <= 8191 /\
                    0 <= id < 2 ^ 64) ids /\
  length ids = n /\ fepoch g' = fepoch g /\ workerID g' = workerID g.
Proof. apply NextIDs_fields. Qed.

Lemma NextIDs_carry_worker_witness :
  Forall (fun id => workerField id = 123 /\
                    0 <= sequenceField id <= 8191 /\ 0 <= id < 2 ^ 64)
         [3904327512923004928; 3904327512923004929; 3904327512931393536].
Proof.
  refine (proj1 (NextIDs_carry_worker 3
    {| seq := -1; ts := -1; fepoch := 1234567891011; workerID := 123 |}
    [1700000000000000000; 1700000000000000001; 1700000000001000000]
    _ _ _ _ eq_refl)).
  unfold valid_worker. simpl. lia.
Defined.

(** X5.  Two generators with different worker ids in [0, 1023] never issue
    the same identifier, whatever their epochs and clocks. *)
Theorem NextIDs_workers_disjoint (n1 n2 : nat) (g1 g2 : Gen)
        (clock1 clock2 : list Z) (ids1 ids2 : list FlakeID)
        (g1' g2' : Gen) (clock1' clock2' : list Z) :
  valid_worker g1 -> valid_worker g2 -> workerID g1 <> workerID g2 ->
  NextIDs n1 g1 clock1 = Some (ids1, g1', clock1') ->
  NextIDs n2 g2 clock2 = Some (ids2, g2', clock2') ->
  forall id, In id ids1 -> ~ In id ids2.
Proof.
  intros Hw1 Hw2 Hne H1 H2 id Hin1 Hin2.
  apply NextIDs_fields in H1; [| exact Hw1].
  apply NextIDs_fields in H2; [| exact Hw2].
  destruct H1 as (Hall1 & _). destruct H2 as (Hall2 & _).
  rewrite List.Forall_forall in Hall1, Hall2.
  destruct (Hall1 id Hin1) as (Hf1 & _). destruct (Hall2 id Hin2) as (Hf2 & _).
  congruence.
Qed.

Lemma NextIDs_workers_disjoint_witness :
  ~ In 3904327512923004928 [3904327512922005504].
Proof.
  apply (NextIDs_workers_disjoint 1 1
    {| seq := -1; ts := -1; fepoch := 1234567891011; workerID := 123 |}
    {| seq := -1; ts := -1; fepoch := 1234567891011; workerID := 1 |}
    [1700000000000000000] [1700000000000000000]
    [3904327512923004928] [3904327512922005504]
    {| seq := 0; ts := 1700000000000; fepoch := 1234567891011; workerID := 123 |}
    {| seq := 0; ts := 1700000000000; fepoch := 1234567891011; workerID := 1 |}
    [] []).
  - unfold valid_worker. simpl. lia.
  - unfold valid_worker. simpl. lia.
  - simpl. lia.
  - reflexivity.
  - reflexivity.
  - left. reflexivity.
Defined.

(** X6.  Identifiers sort by time across generators: for two generators
    with one epoch and worker ids in [0, 1023], an identifier minted in an
    earlier millisecond is below one minted in a later millisecond, whatever
    the worker ids and sequences, as long as both timestamps fit 41 bits. *)
Theorem NextID_sorts_by_time (g1 g2 : Gen) (clock1 clock2 : list Z)
        (id1 id2 : FlakeID) (g1' g2' : Gen) (clock1' clock2' : list Z) :
  valid_worker g1 -> valid_worker g2 -> fepoch g1 = fepoch g2 ->
  NextID g1 clock1 = Some (id1, g1', clock1') ->
  NextID g2 clock2 = Some (id2, g2', clock2') ->
  0 <= ts g1' - fepoch g1 -> ts g1' < ts g2' -> ts g2' - fepoch g2 < 2 ^ 41 ->
  id1 < id2.
Proof.
  unfold valid_worker. intros Hw1 Hw2 He H1 H2 Hlo Hlt Hhi.
  apply NextID_inv in H1. destruct H1 as (_ & _ & _ & -> & Hs1 & _).
  apply NextID_inv in H2. destruct H2 as (_ & _ & _ & -> & Hs2 & _).
  rewrite !pack_sum by assumption.
  rewrite !Z.mod_small by lia. lia.
Qed.

Lemma NextID_sorts_by_time_witness : 3904327512923004928 < 3904327512930394112.
Proof.
  apply (NextID_sorts_by_time
    {| seq := -1; ts := -1; fepoch := 1234567891011; workerID := 123 |}
    {| seq := -1; ts := -1; fepoch := 1234567891011; workerID := 1 |}
    [1700000000000000000] [1700000000001000000]
    3904327512923004928 3904327512930394112
    {| seq := 0; ts := 1700000000000; fepoch := 1234567891011; workerID := 123 |}
    {| seq := 0; ts := 1700000000001; fepoch := 1234567891011; workerID := 1 |}
    [] []); try reflexivity; unfold valid_worker; simpl; lia.
Defined.

(** X7.  An identifier is below [2^63], and so positive as a signed 64-bit
    integer, exactly while the elapsed milliseconds fit 40 bits; in the
    second half of the 41-bit range the top bit is set. *)
Theorem NextID_sign_bit (g : Gen) (clock : list Z)
        (id : FlakeID) (g' : Gen) (clock' : list Z) :
  valid_worker g -> 0 <= ts g' - fepoch g < 2 ^ 41 ->
  NextID g clock = Some (id, g', clock') ->
  (id < 2 ^ 63 <-> ts g' - fepoch g < 2 ^ 40) /\
  (int64 id < 0 <-> 2 ^ 40 <= ts g' - fepoch g).
Proof.
  unfold valid_worker. intros Hw Ht H.
  apply NextID_inv in H. destruct H as (_ & _ & _ & -> & Hs & _).
  rewrite pack_sum by assumption. rewrite Z.mod_small by lia.
  set (v := (ts g' - fepoch g) * 8388608 + workerID g * 8192 + seq g').
  assert (Hv : 0 <= v < 2 ^ 64) by (unfold v; lia).
  assert (Hlow : v < 2 ^ 63 <-> ts g' - fepoch g < 2 ^ 40) by (unfold v; lia).
  split; [exact Hlow |].
  unfold int64. destruct (Z.lt_ge_cases v (2 ^ 63)) as [Hsmall | Hbig].
  - rewrite Z.mod_small by lia. lia.
  - replace ((v + 2 ^ 63) mod 2 ^ 64) with (v - 2 ^ 63).
    + lia.
    + symmetry. rewrite <- (Z.mod_small (v - 2 ^ 63) (2 ^ 64)) by lia.
      replace (v + 2 ^ 63) with (v - 2 ^ 63 + 1 * 2 ^ 64) by lia.
      apply Z.mod_add. lia.
Qed.

Lemma NextID_sign_bit_witness :
  3904327512923004928 < 2 ^ 63 <-> 1700000000000 - 1234567891011 < 2 ^ 40.
Proof.
  apply (NextID_sign_bit
    {| seq := -1; ts := -1; fepoch := 1234567891011; workerID := 123 |}
    [1700000000000000000] 3904327512923004928
    {| seq := 0; ts := 1700000000000; fepoch := 1234567891011; workerID := 123 |}
    []); [unfold valid_worker; simpl; lia | simpl; lia | reflexivity].
Defined.

(** ** Batches one after the other *)

Lemma NextIDs_app m : forall n g clock,
  NextIDs (m + n) g clock =
  match NextIDs m g clock with
  | None => None
  | Some (ids1, g1, clock1) =>
    match NextIDs n g1 clock1 with
    | None => None
    | Some (ids2, g2, clock2) => Some (ids1 ++ ids2, g2, clock2)
    end
  end.
Proof.
  induction m as [| m IH]; intros n g clock.
  - cbn [Nat.add NextIDs].
    destruct (NextIDs n g clock) as [[[ids g2] clock2] |]; reflexivity.
  - cbn [Nat.add NextIDs].
    destruct (NextID g clock) as [[[id g1] clock1] |]; [| reflexivity].
    rewrite IH.
    destruct (NextIDs m g1 clock1) as [[[ids1 g2] clock2] |]; [| reflexivity].
    destruct (NextIDs n g2 clock2) as [[[ids2 g3] clock3] |]; reflexivity.
Qed.

(** [GenMulti] in terms of the calls it makes, for a length that fits. *)
Lemma GenMulti_run heap g clock n :
  0 <= n -> 8 * n <= maxAlloc -> 8 * n <= heap ->
  GenMulti heap g clock n =
  match NextIDs (Z.to_nat n) g clock with
  | Some (ids, g', clock') => Done (concat (map ToBytes ids), g', clock')
  | None => OutOfClock
  end.
Proof.
  intros Hn Hmax Hheap. unfold GenMulti.
  rewrite makeBytes_served by assumption.
  pose proof (GenMulti_loop_spec (Z.to_nat n) 0 g clock []) as Hloop.
  cbn [app] in Hloop. change (Z.of_nat 0) with 0 in Hloop.
  unfold maxAlloc in Hmax.
  rewrite Hloop by (simpl; lia).
  reflexivity.
Qed.

(** A batch that returns was served by [make]. *)
Lemma GenMulti_Done_served heap g clock n r :
  0 <= n -> 8 * n <= maxAlloc ->
  GenMulti heap g clock n = Done r -> 8 * n <= heap.
Proof.
  unfold maxAlloc. intros Hn Hmax. unfold GenMulti, makeBytes, maxAlloc.
  rewrite (uint64_small (n * 8)) by lia.
  destruct (Z.ltb_spec (2 ^ 48) (n * 8)); [discriminate |].
  destruct (Z.ltb_spec heap (n * 8)); [discriminate |].
  intros _. lia.
Qed.

(** X8.  One batch of [m + n] identifiers that the runtime can allocate
    ([8 * (m + n)] bytes at most [maxAlloc] and at most the memory left) is
    a batch of [m] followed by a batch of [n] on the generator and clock
    the first one leaves: the bytes are the two byte sequences one after
    the other, and the final generator and clock are the same. *)
Theorem GenMulti_splits (heap heap1 heap2 : Z) (g : Gen) (clock : list Z)
        (m n : Z) (b1 b2 : list Z) (g1 g2 : Gen) (clock1 clock2 : list Z) :
  0 <= m -> 0 <= n -> 8 * (m + n) <= maxAlloc -> 8 * (m + n) <= heap ->
  GenMulti heap1 g clock m = Done (b1, g1, clock1) ->
  GenMulti heap2 g1 clock1 n = Done (b2, g2, clock2) ->
  GenMulti heap g clock (m + n) = Done (b1 ++ b2, g2, clock2).
Proof.
  intros Hm Hn Hmax Hheap H1 H2.
  pose proof (GenMulti_Done_served _ _ _ _ _ Hm ltac:(lia) H1) as Hh1.
  pose proof (GenMulti_Done_served _ _ _ _ _ Hn ltac:(lia) H2) as Hh2.
  rewrite GenMulti_run in H1, H2 |- * by lia.
  rewrite Z2Nat.inj_add, NextIDs_app by lia.
  destruct (NextIDs (Z.to_nat m) g clock) as [[[ids1 ga] ca] |]; [| discriminate].
  injection H1 as <- <- <-.
  destruct (NextIDs (Z.to_nat n) ga ca) as [[[ids2 gb] cb] |]; [| discriminate].
  injection H2 as <- <- <-.
  rewrite map_app, concat_app. reflexivity.
Qed.

Lemma GenMulti_splits_witness :
  GenMulti 16 {| seq := -1; ts := -1; fepoch := 1234567891011; workerID := 123 |}
           [1700000000000000000; 1700000000000000001] (1 + 1) =
  Done ([54; 46; 245; 47; 222; 143; 96; 0] ++ [54; 46; 245; 47; 222; 143; 96; 1],
        {| seq := 1; ts := 1700000000000; fepoch := 1234567891011; workerID := 123 |},
        []).
Proof.
  apply (GenMulti_splits 16 8 8
    {| seq := -1; ts := -1; fepoch := 1234567891011; workerID := 123 |}
    [1700000000000000000; 1700000000000000001] 1 1
    [54; 46; 245; 47; 222; 143; 96; 0] [54; 46; 245; 47; 222; 143; 96; 1]
    {| seq := 0; ts := 1700000000000; fepoch := 1234567891011; workerID := 123 |}
    {| seq := 1; ts := 1700000000000; fepoch := 1234567891011; workerID := 123 |}
    [1700000000000000001] []); try (unfold maxAlloc; lia); reflexivity.
Defined.

(** ** The byte form *)

(** The eight bytes are the digits of the value in base 256, the most
    significant first. *)
Lemma ToBytes_digits x :
  0 <= x < 2 ^ 64 ->
  exists b0 b1 b2 b3 b4 b5 b6 b7,
    ToBytes x = [b0; b1; b2; b3; b4; b5; b6; b7] /\
    (is_byte b0 /\ is_byte b1 /\ is_byte b2 /\ is_byte b3 /\
     is_byte b4 /\ is_byte b5 /\ is_byte b6 /\ is_byte b7) /\
    x = b0 * 72057594037927936 + b1 * 281474976710656 + b2 * 1099511627776 +
        b3 * 4294967296 + b4 * 16777216 + b5 * 65536 + b6 * 256 + b7.
Proof.
  intros Hx. unfold ToBytes.
  eexists _, _, _, _, _, _, _, _. split; [reflexivity |].
  split; [repeat split; apply byte_is_byte |].
  pose proof (digits_sum x Hx) as H. lia.
Qed.

(** X9.  The byte form keeps the order: one 64-bit value is below another
    exactly when its eight bytes come first in the byte-wise order, so byte
    strings of identifiers sort as the identifiers do. *)
Theorem ToBytes_keeps_order (x y : FlakeID) :
  0 <= x < 2 ^ 64 -> 0 <= y < 2 ^ 64 ->
  (x < y <-> bytes_lt (ToBytes x) (ToBytes y)).
Proof.
  intros Hx Hy.
  destruct (ToBytes_digits x Hx)
    as (a0 & a1 & a2 & a3 & a4 & a5 & a6 & a7 & -> & Ha & ->).
  destruct (ToBytes_digits y Hy)
    as (b0 & b1 & b2 & b3 & b4 & b5 & b6 & b7 & -> & Hb & ->).
  unfold is_byte in *. cbn [bytes_lt]. lia.
Qed.

Lemma ToBytes_keeps_order_witness :
  bytes_lt (ToBytes 3904327512923004929) (ToBytes 3904327512931393536).
Proof.
  apply (ToBytes_keeps_order 3904327512923004929 3904327512931393536); lia.
Defined.

(** ** The text form, further *)

Lemma inAlphabet_encode i : 0 <= i < 64 -> inAlphabet (base64.encode i) = true.
Proof.
  intros Hi. unfold inAlphabet. rewrite decodeMap_encode by exact Hi.
  destruct (Z.eqb_spec i 255); [lia | reflexivity].
Qed.

Lemma isNewline_encode i : 0 <= i < 64 -> base64.isNewline (base64.encode i) = false.
Proof.
  intros Hi. destruct (base64.isNewline (base64.encode i)) eqn:H; [| reflexivity].
  apply isNewline_not_alphabet in H. rewrite decodeMap_encode in H by exact Hi. lia.
Qed.

(** X10.  [ToString] is one-to-one on 64-bit values: two identifiers with
    the same text are the same identifier, so comparing texts (as the test
    of the package does) compares identifiers. *)
Theorem ToString_injective (x y : FlakeID) :
  0 <= x < 2 ^ 64 -> 0 <= y < 2 ^ 64 -> ToString x = ToString y -> x = y.
Proof.
  intros Hx Hy H. apply (f_equal base64.DecodeString) in H.
  unfold ToString, ToBytes in H.
  rewrite !DecodeString_EncodeToString_8 in H by apply byte_is_byte.
  injection H as H0 H1 H2 H3 H4 H5 H6 H7.
  rewrite <- (digits_sum x Hx), <- (digits_sum y Hy).
  rewrite H0, H1, H2, H3, H4, H5, H6, H7. reflexivity.
Qed.

Lemma ToString_injective_witness :
  ToString 3904327512923004928 = "Ni71L96PYAA="%string /\
  3904327512923004928 = 3904327512923004928.
Proof.
  split; [reflexivity |].
  apply (ToString_injective 3904327512923004928 3904327512923004928);
    [lia | lia | reflexivity].
Defined.

(** X11.  The text of every identifier is valid URL-safe base64 for eight
    bytes, without any newline: its first eleven characters belong to the
    alphabet [A-Z a-z 0-9 - _] and the twelfth is the padding. *)
Theorem ToString_valid (id : FlakeID) :
  valid_base64 (ToString id) = true /\
  stripNewlines (list_ascii_of_string (ToString id)) =
    list_ascii_of_string (ToString id) /\
  payloadLength (list_ascii_of_string (ToString id)) = 8%nat /\
  Forall (fun c => inAlphabet c = true)
         (firstn 11 (list_ascii_of_string (ToString id))) /\
  skipn 11 (list_ascii_of_string (ToString id)) = [base64.padChar].
Proof.
  unfold valid_base64, ToString, base64.EncodeToString.
  rewrite list_ascii_of_string_of_list_ascii.
  unfold ToBytes. cbn [base64.Encode].
  assert (Hstrip : forall i l, 0 <= i < 64 ->
            stripNewlines (base64.encode i :: l) = base64.encode i :: stripNewlines l).
  { intros i l Hi. apply stripNewlines_other, isNewline_encode, Hi. }
  repeat rewrite Hstrip by apply sextet_range.
  change (stripNewlines [base64.padChar]) with [base64.padChar].
  cbn [validGroups payloadLength firstn skipn].
  repeat rewrite inAlphabet_encode by apply sextet_range.
  repeat split; try reflexivity.
  repeat (constructor; [apply inAlphabet_encode, sextet_range |]). constructor.
Qed.



(** X13.  [FromString] panics exactly on the valid texts that stand for
    fewer than eight bytes, the empty text among them; on every other text
    it returns, with an error or an identifier. *)
Theorem FromString_panics (s : string) :
  FromString s = Panic <->
  valid_base64 s = true /\
  (payloadLength (stripNewlines (list_ascii_of_string s)) < 8)%nat.
Proof.
  pose proof (DecodeString_valid s) as Hvalid. unfold FromString.
  destruct (valid_base64 s).
  - destruct Hvalid as (bs & -> & <-).
    split.
    + intros H. split; [reflexivity |].
      do 8 (destruct bs as [| ? bs]; [simpl; lia |]). discriminate.
    + intros [_ Hlen].
      do 8 (destruct bs as [| ? bs]; [reflexivity |]). simpl in Hlen. lia.
  - destruct (base64.DecodeString s) as [bs err]. simpl in Hvalid. subst err.
    split; [discriminate | intros [H _]; discriminate].
Qed.

Lemma FromString_panics_witness : FromString "AAAAAAAAAA==" = Panic.
Proof.
  apply (FromString_panics "AAAAAAAAAA=="). split; [reflexivity |].
  vm_compute. lia.
Defined.

(** X14.  Whatever text [FromString] accepts, the identifier it yields is
    a 64-bit value whose own text decodes to it again: [ToString] after
    [FromString] gives the one text of the identifier that [ToString]
    produces, which [FromString] maps to the same identifier. *)
Theorem FromString_normalises (s : string) (id : FlakeID) :
  FromString s = Ok id ->
  0 <= id < 2 ^ 64 /\ FromString (ToString id) = Ok id.
Proof.
  intros H.
  assert (Hid : 0 <= id < 2 ^ 64).
  { unfold FromString in H.
    destruct (base64.DecodeString s) as [bs [err |]]; [discriminate |].
    do 8 (destruct bs as [| ? bs]; [discriminate |]).
    injection H as <-. unfold assemble. apply uint64_range. }
  split; [exact Hid |].
  unfold FromString, ToString, ToBytes.
  rewrite DecodeString_EncodeToString_8 by apply byte_is_byte.
  rewrite assemble_bytes by apply byte_is_byte.
  rewrite bytes_join by exact Hid. reflexivity.
Qed.

Lemma FromString_normalises_witness :
  FromString (ToString 0) = Ok 0.
Proof.
  apply (FromString_normalises "AAAAAAAAAAAAAAAA" 0). reflexivity.
Defined.

(** ** The package-level generator of [fid.go] *)

(** A reading behind the stored millisecond: the error, nothing changed. *)
Lemma fid_NextID_behind st nano clock :
  millis nano < fid.lastTs st ->
  fid.NextID st (nano :: clock) =
  Some ((0, Some (fid.ErrBackwards (fid.lastTs st))), st, clock).
Proof.
  intros H. unfold fid.NextID. cbn [getTsInfo].
  change (Z.quot nano 1000000) with (millis nano).
  destruct (Z.ltb_spec (millis nano) (fid.lastTs st)); [reflexivity | lia].
Qed.

(** A reading not behind the stored millisecond: [fid.NextID] does what
    [NextID] of [flake.go] does on the same state with the epoch [twepoch]. *)
Lemma fid_NextID_not_behind st nano clock :
  fid.lastTs st <= millis nano ->
  fid.NextID st (nano :: clock) =
  match NextID (as_Gen st) (nano :: clock) with
  | None => None
  | Some (id, g', clock') => Some ((id, None), as_State g', clock')
  end.
Proof.
  intros H. unfold fid.NextID, NextID, as_Gen. cbn [getTsInfo ts seq].
  change (Z.quot nano 1000000) with (millis nano).
  destruct (Z.ltb_spec (millis nano) (fid.lastTs st)); [lia |].
  destruct (millis nano =? fid.lastTs st).
  - destruct (Z.land (int64 (fid.seq st + 1)) sequenceMask =? 0).
    + destruct (waitNextMilli (fid.lastTs st) (millis nano) clock)
        as [[t1 c1] |]; reflexivity.
    + reflexivity.
  - reflexivity.
Qed.

(** The millisecond a call commits is the one of its first reading, or a
    later one than the stored one when it had to wait. *)
Lemma NextID_commits g nano clock id g' clock' :
  NextID g (nano :: clock) = Some (id, g', clock') ->
  ts g' = millis nano \/ ts g < ts g'.
Proof.
  unfold NextID. cbn [getTsInfo]. change (Z.quot nano 1000000) with (millis nano).
  destruct (millis nano =? ts g).
  - destruct (Z.land (int64 (seq g + 1)) sequenceMask =? 0).
    + destruct (waitNextMilli (ts g) (millis nano) clock) as [[t1 c1] |] eqn:Hw;
        [| discriminate].
      intros H. injection H as _ <- _. cbn [ts].
      apply waitNextMilli_inv in Hw. right. apply Hw.
    + intros H. injection H as _ <- _. left. reflexivity.
  - intros H. injection H as _ <- _. left. reflexivity.
Qed.

(** What a call of [fid.NextID] that returns has done. *)
Lemma fid_NextID_inv st clock id err st' clock' :
  fid.NextID st clock = Some ((id, err), st', clock') ->
  (exists pre nano, clock = pre ++ nano :: clock') /\
  fid.workerID st' = fid.workerID st /\
  ((err = Some (fid.ErrBackwards (fid.lastTs st)) /\ id = 0 /\ st' = st /\
    exists nano, clock = nano :: clock' /\ millis nano < fid.lastTs st) \/
   (err = None /\
    id = pack (fid.lastTs st') fid.twepoch (fid.workerID st) (fid.seq st') /\
    0 <= fid.seq st' <= 8191 /\
    (exists nano, In nano clock /\ fid.lastTs st' = millis nano) /\
    ((fid.seq st' = 0 /\ fid.lastTs st < fid.lastTs st') \/
     (fid.lastTs st' = fid.lastTs st /\
      fid.seq st' = (fid.seq st + 1) mod 8192 /\ fid.seq st' <> 0)))).
Proof.
  destruct clock as [| nano clock]; [discriminate |].
  destruct (Z.lt_ge_cases (millis nano) (fid.lastTs st)) as [Hlt | Hge].
  - rewrite fid_NextID_behind by exact Hlt. intros H. injection H as <- <- <- <-.
    split; [exists [], nano; reflexivity |]. split; [reflexivity |].
    left. repeat split. exists nano. split; [reflexivity | exact Hlt].
  - rewrite fid_NextID_not_behind by exact Hge.
    destruct (NextID (as_Gen st) (nano :: clock)) as [[[id0 g'] c'] |] eqn:Hcall;
      [| discriminate].
    intros H. injection H as <- <- <- <-.
    pose proof (NextID_commits _ _ _ _ _ _ Hcall) as Hcommit.
    apply NextID_inv in Hcall.
    destruct Hcall as ((pre & nano' & Hclock & Hts) & _ & Hwk & Hid & Hs & Hcase).
    cbn [as_Gen as_State fid.workerID fid.lastTs fid.seq
         ts seq fepoch workerID] in *.
    split; [exists pre, nano'; exact Hclock |]. split; [exact Hwk |].
    right. split; [reflexivity |]. split; [exact Hid |]. split; [exact Hs |].
    split.
    + exists nano'. split; [| exact Hts].
      rewrite Hclock. apply in_or_app. right. left. reflexivity.
    + destruct Hcase as [[Hz Hne] | Hsame]; [left | right; exact Hsame].
      split; [exact Hz |].
      lia.
Qed.

Lemma as_Gen_as_State g : fepoch g = fid.twepoch -> as_Gen (as_State g) = g.
Proof. destruct g as [s t e w]. cbn. intros ->. reflexivity. Qed.

(** X15.  The two generators differ only on a clock that went back.  On a
    reading that is not behind the stored millisecond, [NextID] of [fid.go]
    returns the identifier of [NextID] of [flake.go] with the epoch
    [twepoch], without error and with the same new state; on a reading
    behind it, [fid.go] returns the error and leaves its state alone, where
    [flake.go] mints an identifier in the earlier millisecond. *)
Theorem fid_NextID_agrees_with_flake (g : Gen) (nano : Z) (clock : list Z) :
  fepoch g = fid.twepoch ->
  (ts g <= millis nano ->
   fid.NextID (as_State g) (nano :: clock) =
   match NextID g (nano :: clock) with
   | None => None
   | Some (id, g', clock') => Some ((id, None), as_State g', clock')
   end) /\
  (millis nano < ts g ->
   fid.NextID (as_State g) (nano :: clock) =
     Some ((0, Some (fid.ErrBackwards (ts g))), as_State g, clock) /\
   NextID g (nano :: clock) =
     Some (pack (millis nano) (fepoch g) (workerID g) 0,
           {| seq := 0; ts := millis nano;
              fepoch := fepoch g; workerID := workerID g |}, clock)).
Proof.
  intros He. split.
  - intros Hge. rewrite fid_NextID_not_behind by exact Hge.
    rewrite as_Gen_as_State by exact He. reflexivity.
  - intros Hlt. split.
    + apply (fid_NextID_behind (as_State g)). exact Hlt.
    + apply NextID_other_milli. lia.
Qed.

Lemma fid_NextID_agrees_with_flake_witness :
  fid.NextID {| fid.workerID := 123; fid.lastTs := 1700000000005; fid.seq := 0 |}
             [1700000000001000000] =
  Some ((0, Some (fid.ErrBackwards 1700000000005)),
        {| fid.workerID := 123; fid.lastTs := 1700000000005; fid.seq := 0 |}, []).
Proof.
  destruct (fid_NextID_agrees_with_flake
    {| seq := 0; ts := 1700000000005; fepoch := 1234567891011; workerID := 123 |}
    1700000000001000000 [] eq_refl) as [_ H].
  destruct H as [H _]; [simpl; eval_millis; lia |]. exact H.
Defined.

(** After calls of [fid.NextID] the identifiers minted go up from the state
    the calls started in, whatever the clock does. *)
Lemma fid_NextIDs_increasing_from n : forall st clock rs st' clock',
  0 <= fid.workerID st <= 1023 -> 0 <= fid.seq st <= 8191 ->
  fid.lastTs st - fid.twepoch < 2 ^ 41 ->
  in_range fid.twepoch clock ->
  fid.NextIDs n st clock = Some (rs, st', clock') ->
  StronglySorted Z.lt (minted rs) /\
  Forall (fun id => exists t s,
            id = pack t fid.twepoch (fid.workerID st) s /\
            0 <= t - fid.twepoch < 2 ^ 41 /\ 0 <= s <= 8191 /\
            lex_lt (fid.lastTs st - fid.twepoch, fid.seq st) (t - fid.twepoch, s))
         (minted rs).
Proof.
  induction n as [| n IH]; intros st clock rs st' clock' Hw Hs Ht Hrange H;
    cbn [fid.NextIDs] in H.
  - injection H as <- _ _. split; constructor.
  - destruct (fid.NextID st clock) as [[[[id err] st1] clock1] |] eqn:Hcall;
      [| discriminate].
    destruct (fid.NextIDs n st1 clock1) as [[[rs1 st2] clock2] |] eqn:Hrest;
      [| discriminate].
    injection H as <- _ _.
    apply fid_NextID_inv in Hcall.
    destruct Hcall as ((pre & nano & Hclock) & Hwk & Hcase).
    assert (Hrange1 : in_range fid.twepoch clock1).
    { unfold in_range in *. rewrite Hclock in Hrange.
      apply Forall_app in Hrange. destruct Hrange as [_ Hrange].
      apply Forall_cons_iff in Hrange. apply Hrange. }
    destruct Hcase as [(-> & -> & -> & _) | (-> & Hid & Hs1 & (r & Hin & Hr) & Hstep)].
    + (* the error: nothing minted, nothing changed *)
      apply (IH st clock1 rs1 st2 clock2); assumption.
    + assert (Ht1 : 0 <= fid.lastTs st1 - fid.twepoch < 2 ^ 41).
      { unfold in_range in Hrange. rewrite List.Forall_forall in Hrange.
        rewrite Hr. apply Hrange. exact Hin. }
      destruct (IH st1 clock1 rs1 st2 clock2) as [Hsorted Hall];
        try assumption; try lia.
      assert (Hlex : lex_lt (fid.lastTs st - fid.twepoch, fid.seq st)
                            (fid.lastTs st1 - fid.twepoch, fid.seq st1)).
      { unfold lex_lt. cbn [fst snd].
        destruct Hstep as [[Hz Hlt] | (Heq & Hnext & Hnz)]; [left; lia |].
        right. split; [lia |].
        destruct (Z.eq_dec (fid.seq st) 8191) as [E | E].
        - rewrite E in Hnext. change ((8191 + 1) mod 8192) with 0 in Hnext. lia.
        - rewrite Z.mod_small in Hnext by lia. lia. }
      unfold minted. cbn [List.filter snd map fst]. fold (minted rs1).
      split.
      * constructor; [exact Hsorted |].
        eapply List.Forall_impl; [| exact Hall]. cbn beta.
        intros x (t & s & -> & Htr & Hsr & Hlt).
        rewrite Hid, Hwk. apply pack_lt; try assumption; lia.
      * constructor.
        -- exists (fid.lastTs st1), (fid.seq st1). repeat split; try lia; assumption.
        -- eapply List.Forall_impl; [| exact Hall]. cbn beta.
           intros x (t & s & -> & Htr & Hsr & Hlt).
           exists t, s. rewrite Hwk. repeat split; try lia.
           eapply lex_lt_trans; eassumption.
Qed.

(** X16.  [fid.NextID] never issues an identifier out of order: for a
    worker id in [0, 1023] and readings that fit the 41 bits of the
    timestamp field, the identifiers minted by any number of calls are
    strictly increasing and pairwise different, on every clock, also one
    that goes back; the calls made while the clock is behind return the
    error instead. *)
Theorem fid_NextIDs_strictly_increasing (n : nat) (st : fid.State)
        (clock : list Z) (rs : list (FlakeID * option fid.error))
        (st' : fid.State) (clock' : list Z) :
  0 <= fid.workerID st <= 1023 -> 0 <= fid.seq st <= 8191 ->
  fid.lastTs st - fid.twepoch < 2 ^ 41 ->
  in_range fid.twepoch clock ->
  fid.NextIDs n st clock = Some (rs, st', clock') ->
  StronglySorted Z.lt (minted rs) /\ List.NoDup (minted rs).
Proof.
  intros Hw Hs Ht Hrange H.
  destruct (fid_NextIDs_increasing_from n st clock rs st' clock' Hw Hs Ht Hrange H)
    as [Hsorted _].
  split; [exact Hsorted | apply StronglySorted_lt_NoDup; exact Hsorted].
Qed.

Lemma fid_NextIDs_strictly_increasing_witness :
  fid.NextIDs 3 fid.start
    [1700000000001000000; 1700000000000000000; 1700000000001000001] =
  Some ([(3904327512930385920, None);
         (0, Some (fid.ErrBackwards 1700000000001));
         (3904327512930385921, None)],
        {| fid.workerID := 0; fid.lastTs := 1700000000001; fid.seq := 1 |}, []) /\
  StronglySorted Z.lt [3904327512930385920; 3904327512930385921].
Proof.
  split; [reflexivity |].
  refine (proj1 (fid_NextIDs_strictly_increasing 3 fid.start
    [1700000000001000000; 1700000000000000000; 1700000000001000001]
    [(3904327512930385920, None);
     (0, Some (fid.ErrBackwards 1700000000001));
     (3904327512930385921, None)]
    {| fid.workerID := 0; fid.lastTs := 1700000000001; fid.seq := 1 |} []
    _ _ _ _ eq_refl)).
  - simpl. lia.
  - simpl. lia.
  - simpl. unfold fid.twepoch. lia.
  - unfold in_range. repeat (apply List.Forall_cons; [simpl; eval_millis; unfold fid.twepoch; lia |]).
    apply List.Forall_nil.
Defined.

(** Every identifier [fid.NextID] mints carries the configured worker id. *)
Lemma fid_NextIDs_worker n : forall st clock rs st' clock',
  0 <= fid.workerID st <= 1023 ->
  fid.NextIDs n st clock = Some (rs, st', clock') ->
  Forall (fun id => workerField id = fid.workerID st) (minted rs) /\
  fid.workerID st' = fid.workerID st.
Proof.
  induction n as [| n IH]; intros st clock rs st' clock' Hw H;
    cbn [fid.NextIDs] in H.
  - injection H as <- <- _. split; [constructor | reflexivity].
  - destruct (fid.NextID st clock) as [[[[id err] st1] clock1] |] eqn:Hcall;
      [| discriminate].
    destruct (fid.NextIDs n st1 clock1) as [[[rs1 st2] clock2] |] eqn:Hrest;
      [| discriminate].
    injection H as <- <- _.
    apply fid_NextID_inv in Hcall. destruct Hcall as (_ & Hwk & Hcase).
    destruct (IH st1 clock1 rs1 st2 clock2) as [Hall Hw2]; [lia | exact Hrest |].
    rewrite Hwk in Hall, Hw2. split; [| exact Hw2].
    destruct Hcase as [(-> & _) | (-> & Hid & Hs1 & _)].
    + exact Hall.
    + unfold minted. cbn [List.filter snd map fst]. fold (minted rs1).
      constructor; [| exact Hall].
      rewrite Hid. apply workerField_pack; lia.
Qed.

(** X17.  [Config] of [fid.go] ends the process exactly for an id below 0
    or above 1023; otherwise it stores the id and touches nothing else, and
    from then on every identifier [fid.NextID] mints carries that id in its
    worker field, whatever the clock does. *)
Theorem fid_Config_sets_worker (st : fid.State) (id : Z) :
  (fid.Config st id = None <-> id < 0 \/ id > 1023) /\
  (forall st',
     fid.Config st id = Some st' ->
     st' = {| fid.workerID := id; fid.lastTs := fid.lastTs st;
              fid.seq := fid.seq st |} /\
     forall n clock rs st'' clock',
       fid.NextIDs n st' clock = Some (rs, st'', clock') ->
       Forall (fun x => workerField x = id) (minted rs) /\
       fid.workerID st'' = id).
Proof.
  unfold fid.Config. cbn [fid.workerID]. change maxWorkerID with 1023.
  destruct (Z.ltb_spec id 0) as [Hneg | Hnn]; cbn [orb].
  { split; [split; [lia | reflexivity] | discriminate]. }
  destruct (Z.gtb_spec id 1023) as [Hbig | Hle].
  { split; [split; [lia | reflexivity] | discriminate]. }
  split; [split; [discriminate | lia] |].
  intros st' H. injection H as <-. split; [reflexivity |].
  intros n clock rs st'' clock' Hrun.
  apply fid_NextIDs_worker in Hrun; [exact Hrun | cbn; lia].
Qed.

Lemma fid_Config_sets_worker_witness :
  fid.Config fid.start 123 =
    Some {| fid.workerID := 123; fid.lastTs := -1; fid.seq := 0 |} /\
  Forall (fun x => workerField x = 123) [3904327512923004928].
Proof.
  split; [reflexivity |].
  destruct (fid_Config_sets_worker fid.start 123) as [_ H].
  destruct (H _ eq_refl) as [_ Hrun].
  destruct (Hrun 1%nat [1700000000000000000]
                 [(3904327512923004928, None)]
                 {| fid.workerID := 123; fid.lastTs := 1700000000000; fid.seq := 0 |}
                 [] eq_refl) as [Hall _].
  exact Hall.
Defined.

(** The loop of [fid.GenMulti] after [k] iterations without error. *)
Lemma fid_GenMulti_loop_spec (todo : nat) : forall (k : nat) st clock pre,
  length pre = (8 * k)%nat ->
  8 * (Z.of_nat k + Z.of_nat todo) < 2 ^ 64 ->
  fid.GenMulti_loop todo (Z.of_nat k) st clock (pre ++ repeat 0 (8 * todo)) =
  match mintUntilError todo st clock with
  | Some (ids, None, st', clock') =>
    Done ((pre ++ concat (map ToBytes ids), None), st', clock')
  | Some (_, Some err, st', clock') => Done (([], Some err), st', clock')
  | None => OutOfClock
  end.
Proof.
  induction todo as [| todo IH]; intros k st clock pre Hlen Hfit.
  - simpl. rewrite !app_nil_r. reflexivity.
  - cbn [fid.GenMulti_loop mintUntilError].
    destruct (fid.NextID st clock) as [[[[id [err |]] st1] clock1] |];
      [reflexivity | | reflexivity].
    replace (8 * S todo)%nat with (8 + 8 * todo)%nat by lia.
    rewrite repeat_app. cbn [repeat app].
    rewrite (uint64_small (Z.of_nat k * 8)) by lia.
    rewrite putID_app by lia.
    rewrite (uint64_small (Z.of_nat k + 1)) by lia.
    replace (Z.of_nat k + 1) with (Z.of_nat (S k)) by lia.
    rewrite (app_assoc pre (ToBytes id)).
    rewrite IH; [| rewrite length_app; simpl; lia | lia].
    destruct (mintUntilError todo st1 clock1) as [[[[ids [err |]] st2] clock2] |];
      try reflexivity.
    cbn [map concat]. rewrite <- !app_assoc. reflexivity.
Qed.

(** Calls ended by the error: the identifiers before it were minted by
    calls without error, and the last reading was behind their state. *)
Lemma mintUntilError_error n : forall st clock ids err st' clock',
  mintUntilError n st clock = Some (ids, Some err, st', clock') ->
  (length ids < n)%nat /\
  err = fid.ErrBackwards (fid.lastTs st') /\
  exists nano,
    millis nano < fid.lastTs st' /\
    mintUntilError (length ids) st clock = Some (ids, None, st', nano :: clock').
Proof.
  induction n as [| n IH]; intros st clock ids err st' clock' H;
    cbn [mintUntilError] in H; [discriminate |].
  destruct (fid.NextID st clock) as [[[[id [e |]] st1] clock1] |] eqn:Hcall;
    [| | discriminate].
  - injection H as <- <- <- <-.
    apply fid_NextID_inv in Hcall.
    destruct Hcall as (_ & _ & [(He & _ & -> & nano & -> & Hlt) | (He & _)]);
      [| discriminate].
    injection He as ->.
    split; [simpl; lia |]. split; [reflexivity |].
    exists nano. split; [exact Hlt | reflexivity].
  - destruct (mintUntilError n st1 clock1) as [[[[ids1 e1] st2] clock2] |] eqn:Hrest;
      [| discriminate].
    injection H as <- -> <- <-.
    destruct (IH _ _ _ _ _ _ Hrest) as (Hlen & Herr & nano & Hlt & Hrun).
    split; [simpl; lia |]. split; [exact Herr |].
    exists nano. split; [exact Hlt |].
    cbn [length mintUntilError]. rewrite Hcall, Hrun. reflexivity.
Qed.

(** X18.  [GenMulti] of [fid.go], for a count whose byte length the
    runtime can allocate ([8 * n] at most [maxAlloc] and at most the memory
    left): when no call fails it returns the bytes of the [n] identifiers
    in call order; when a call finds the clock behind, it returns a nil
    slice with that error, and the identifiers minted before it are dropped
    although the package variables have moved past them, so that they are
    never issued. *)
Theorem fid_GenMulti_result (heap : Z) (st : fid.State) (clock : list Z) (n : Z) :
  0 <= n -> 8 * n <= maxAlloc -> 8 * n <= heap ->
  match mintUntilError (Z.to_nat n) st clock with
  | Some (ids, None, st', clock') =>
    fid.GenMulti heap st clock n =
    Done ((concat (map ToBytes ids), None), st', clock')
  | Some (ids, Some err, st', clock') =>
    fid.GenMulti heap st clock n = Done (([], Some err), st', clock') /\
    Z.of_nat (length ids) < n /\
    err = fid.ErrBackwards (fid.lastTs st') /\
    exists nano,
      millis nano < fid.lastTs st' /\
      mintUntilError (length ids) st clock = Some (ids, None, st', nano :: clock')
  | None => fid.GenMulti heap st clock n = OutOfClock
  end.
Proof.
  intros Hn Hmax Hheap.
  assert (Hrun : fid.GenMulti heap st clock n =
    match mintUntilError (Z.to_nat n) st clock with
    | Some (ids, None, st', clock') =>
      Done ((concat (map ToBytes ids), None), st', clock')
    | Some (_, Some err, st', clock') => Done (([], Some err), st', clock')
    | None => OutOfClock
    end).
  { unfold fid.GenMulti. rewrite makeBytes_served by assumption.
    pose proof (fid_GenMulti_loop_spec (Z.to_nat n) 0 st clock []) as Hloop.
    cbn [app] in Hloop. change (Z.of_nat 0) with 0 in Hloop.
    unfold maxAlloc in Hmax.
    rewrite Hloop by (simpl; lia). reflexivity. }
  destruct (mintUntilError (Z.to_nat n) st clock)
    as [[[[ids [err |]] st'] clock'] |] eqn:Hmint; try exact Hrun.
  split; [exact Hrun |].
  apply mintUntilError_error in Hmint.
  destruct Hmint as (Hlen & Herr & Hex).
  split; [lia |]. split; [exact Herr | exact Hex].
Qed.

Lemma fid_GenMulti_result_witness :
  fid.GenMulti 4096 fid.start [1700000000001000000; 1700000000000000000] 2 =
  Done (([], Some (fid.ErrBackwards 1700000000001)),
        {| fid.workerID := 0; fid.lastTs := 1700000000001; fid.seq := 0 |}, []).
Proof.
  pose proof (fid_GenMulti_result 4096 fid.start
    [1700000000001000000; 1700000000000000000] 2) as H.
  change (mintUntilError (Z.to_nat 2) _ _)
    with (Some ([3904327512930385920],
                Some (fid.ErrBackwards 1700000000001),
                {| fid.workerID := 0; fid.lastTs := 1700000000001; fid.seq := 0 |},
                @nil Z)) in H.
  destruct H as [H _]; [lia | unfold maxAlloc; lia | lia |]. exact H.
Defined.

(** ** The default generator *)

(** X19.  The worker id [init] derives from a non-negative address number
    is inside [0, 1023], for every address, so [NewGen] never refuses it;
    with the epoch 0 that [init] passes, [NewGen] returns a generator with
    the default epoch whenever the clock is not before 1970. *)
Theorem defaultWorkerID_accepted (ip4 nano : Z) :
  0 <= ip4 ->
  0 <= defaultWorkerID ip4 <= 1023 /\
  (0 <= millis nano ->
   NewGen nano (defaultWorkerID ip4) 0 =
   inl {| seq := -1; ts := -1; fepoch := 1234567891011;
          workerID := defaultWorkerID ip4 |}).
Proof.
  intros Hip.
  assert (Hw : 0 <= defaultWorkerID ip4 <= 1023).
  { unfold defaultWorkerID. change (int64 (maxWorkerID + 1)) with 1024.
    pose proof (Z.rem_bound_pos ip4 1024 Hip). lia. }
  split; [exact Hw |].
  intros Hnow. rewrite NewGen_good by lia. reflexivity.
Qed.

Lemma defaultWorkerID_accepted_witness :
  defaultWorkerID 3232235777 = 257 /\
  NewGen 1700000000000000000 (defaultWorkerID 3232235777) 0 =
  inl {| seq := -1; ts := -1; fepoch := 1234567891011; workerID := 257 |}.
Proof.
  split; [reflexivity |].
  destruct (defaultWorkerID_accepted 3232235777 1700000000000000000) as [_ H];
    [lia |].
  apply H. eval_millis. lia.
Defined.

(** ** The default epoch *)

(** X20.  [NewGen] checks the clock against the epoch it is given and puts
    the default epoch in afterwards: with an epoch <= 0 and a clock between
    1970 and the default epoch (2009-02-13) it returns a generator whose
    epoch is later than the clock, and the identifier minted at that
    reading has the elapsed time wrapped around 41 bits in its timestamp
    field. *)
Theorem NewGen_default_epoch_unchecked (nano w e : Z) (clock : list Z) :
  0 <= w <= 1023 -> e <= 0 -> 0 <= millis nano < 1234567891011 ->
  exists g id g',
    NewGen nano w e = inl g /\ millis nano < fepoch g /\
    NextID g (nano :: clock) = Some (id, g', clock) /\
    timestampField id = 2 ^ 41 + (millis nano - 1234567891011).
Proof.
  intros Hw He Hnow.
  rewrite NewGen_good by lia.
  destruct (Z.leb_spec e 0); [| lia].
  eexists _, _, _. split; [reflexivity |]. cbn [fepoch].
  split; [lia |].
  rewrite NextID_other_milli by (cbn [ts]; lia). cbn [fepoch workerID].
  split; [reflexivity |].
  rewrite timestampField_pack_valid by lia.
  rewrite <- (Z.mod_add _ 1) by lia.
  rewrite Z.mod_small by lia. lia.
Qed.

Lemma NewGen_default_epoch_unchecked_witness :
  exists g id g',
    NewGen 1000000000000000000 123 0 = inl g /\
    millis 1000000000000000000 < fepoch g /\
    NextID g [1000000000000000000] = Some (id, g', []) /\
    timestampField id = 2 ^ 41 + (millis 1000000000000000000 - 1234567891011).
Proof.
  apply (NewGen_default_epoch_unchecked 1000000000000000000 123 0 []);
    try lia. eval_millis. lia.
Defined.

(** ** Bytes, text and back *)

(** X21.  Any eight bytes, written as text and read by [FromString], give
    the identifier whose digits in base 256 they are, most significant
    first; [ToBytes] gives the bytes back and [ToString] the text. *)
Theorem FromString_of_bytes (b0 b1 b2 b3 b4 b5 b6 b7 : Z) :
  is_byte b0 -> is_byte b1 -> is_byte b2 -> is_byte b3 ->
  is_byte b4 -> is_byte b5 -> is_byte b6 -> is_byte b7 ->
  let id := b0 * 2 ^ 56 + b1 * 2 ^ 48 + b2 * 2 ^ 40 + b3 * 2 ^ 32 +
            b4 * 2 ^ 24 + b5 * 2 ^ 16 + b6 * 2 ^ 8 + b7 in
  FromString (base64.EncodeToString [b0; b1; b2; b3; b4; b5; b6; b7]) = Ok id /\
  ToBytes id = [b0; b1; b2; b3; b4; b5; b6; b7] /\
  ToString id = base64.EncodeToString [b0; b1; b2; b3; b4; b5; b6; b7].
Proof.
  intros H0 H1 H2 H3 H4 H5 H6 H7 id.
  assert (Hbytes : ToBytes id = [b0; b1; b2; b3; b4; b5; b6; b7]).
  { unfold ToBytes, byte, id, is_byte in *.
    rewrite !Z.shiftr_div_pow2 by lia.
    change (2 ^ 56) with 72057594037927936.
    change (2 ^ 48) with 281474976710656.
    change (2 ^ 40) with 1099511627776.
    change (2 ^ 32) with 4294967296.
    change (2 ^ 24) with 16777216.
    change (2 ^ 16) with 65536.
    change (2 ^ 8) with 256.
    repeat f_equal; Z.div_mod_to_equations; lia. }
  split; [| split; [exact Hbytes |]].
  - unfold FromString.
    rewrite DecodeString_EncodeToString_8 by assumption.
    rewrite assemble_bytes, lor_bytes_sum by assumption. reflexivity.
  - unfold ToString. rewrite Hbytes. reflexivity.
Qed.

Lemma FromString_of_bytes_witness :
  FromString (base64.EncodeToString [54; 46; 245; 47; 222; 143; 96; 1]) =
  Ok (54 * 2 ^ 56 + 46 * 2 ^ 48 + 245 * 2 ^ 40 + 47 * 2 ^ 32 +
      222 * 2 ^ 24 + 143 * 2 ^ 16 + 96 * 2 ^ 8 + 1).
Proof.
  apply (FromString_of_bytes 54 46 245 47 222 143 96 1); unfold is_byte; lia.
Defined.
